(** * Verification of the wiki-rag ingestion pipeline and retrieval engine

    Shallow embedding of the TypeScript sources:
    - [Retrieval]  : [searchSimilar] of src/server/lib/db.ts
    - [Embeddings] : [getEmbeddingsForTexts] of src/unnamed/part_000
    - [Questions]  : [generateQuestionsForChunk] of src/unnamed/part_001
    - [Chunker]    : [fallbackTextSplitting] of src/server/server.ts
    - [Pipeline]   : the saving loop and the progress reports of [processPage]
                     in src/server/api/indexing/pipeline.ts
    - [Splitter]   : [splitIntoChunks] of src/server/server.ts
    - [Metadata]   : [addSourceMetadata] of src/server/server.ts
    - [PageBatches]: [processPages] of src/server/api/indexing/pipeline.ts
    - [Indexing]   : [getAuthToken], the progress callback and the status
                     handler of src/server/server.ts, and the page collection
                     of src/server/api/indexing/index-descendants.ts *)

From Stdlib Require Import List Bool ZArith QArith Qround Qminmax Lia Lqa Sorted Permutation.
From Stdlib Require Import String Ascii.
Import ListNotations.

(* ------------------------------------------------------------------ *)
(** ** Retrieval: [searchSimilar] *)

Module Retrieval.

(** One row of the result of either SQL query:
    [{ chunk_id, wiki_id, question, chunk, cs }]. [question] is [null]
    for rows of the chunk query. Numbers are exact rationals; the [float8]
    value of the [<=>] operator of pgvector is external and is part of the
    input for each stored row. [cs] is the JavaScript value of the
    [(... <=> $1)::real] column, see [pg_real]. *)
Record SearchRow := mkRow {
  chunk_id : Z;
  wiki_id : string;
  question : option string;
  chunk : string;
  cs : Q
}.

(** A row of [wiki_rag.question] with its distance to the query. *)
Record QuestionRec := mkQuestionRec {
  q_chunk_id : Z;
  q_wiki_id : string;
  q_text : string;
  q_dist : Q
}.

(** A row of [wiki_rag.chunk] with its distance to the query. *)
Record ChunkRec := mkChunkRec {
  c_chunk_id : Z;
  c_wiki_id : string;
  c_text : string;
  c_dist : Q
}.

(** Powers of two and of ten. *)
Definition Qpow2 (e : Z) : Q :=
  if (0 <=? e)%Z then inject_Z (2 ^ e) else 1 / inject_Z (2 ^ (- e)).
Definition Qpow10 (e : Z) : Q :=
  if (0 <=? e)%Z then inject_Z (10 ^ e) else 1 / inject_Z (10 ^ (- e)).

(** [floor(log2 q)] for [q > 0]: the estimate from the bit lengths of the
    numerator and the denominator is exact or one too high. *)
Definition floor_log2 (q : Q) : Z :=
  let k0 := (Z.log2 (Qnum q) - Z.log2 (Zpos (Qden q)))%Z in
  if Qle_bool (Qpow2 k0) q then k0 else (k0 - 1)%Z.

(** The number of decimal digits of a positive integer. *)
Fixpoint digits_aux (fuel : nat) (z : Z) : Z :=
  match fuel with
  | O => 0
  | S f => if (z <? 10)%Z then 1 else (1 + digits_aux f (z / 10))%Z
  end.
Definition digits (z : Z) : Z := digits_aux (Z.to_nat (Z.log2 z + 1)) z.

(** [floor(log10 q)] for [q > 0]. *)
Definition floor_log10 (q : Q) : Z :=
  let k0 := (digits (Qnum q) - digits (Zpos (Qden q)))%Z in
  if Qle_bool (Qpow10 k0) q then k0 else (k0 - 1)%Z.

(** The nearest integer, ties to even. *)
Definition round_half_even (m : Q) : Z :=
  let f := Qfloor m in
  match Qcompare (m - inject_Z f) (1 # 2) with
  | Lt => f
  | Gt => (f + 1)%Z
  | Eq => if Z.even f then f else (f + 1)%Z
  end.

(** Rounding to the nearest binary floating-point number with [prec] bits
    of mantissa whose last place is at least [2^emin], ties to even
    (overflow is not modelled: cosine distances lie in [0, 2]). *)
Definition round_binary (prec emin : Z) (q : Q) : Q :=
  let round_pos x :=
    let e := Z.max (floor_log2 x - (prec - 1)) emin in
    Qred (inject_Z (round_half_even (x / Qpow2 e)) * Qpow2 e) in
  match Qcompare q 0 with
  | Eq => 0
  | Gt => round_pos q
  | Lt => - round_pos (- q)
  end.

(** [float4] ([real]) and [float8] / JavaScript [number]. *)
Definition to_float32 : Q -> Q := round_binary 24 (-149).
Definition to_float64 : Q -> Q := round_binary 53 (-1074).

(** The shortest decimal that reads back as the [float4] value [f > 0]
    (the closest to [f] among the shortest, ties to even): PostgreSQL's
    output of a [real] with the default [extra_float_digits]. *)
Definition shortest_pos (f : Q) : Q :=
  let E := floor_log10 f in
  let attempt n :=
    let s := Qpow10 (Z.of_nat n - 1 - E) in
    let c := Qfloor (f * s) in
    let lo := inject_Z c / s in
    let hi := inject_Z (c + 1) / s in
    let ok x := Qeq_bool (to_float32 x) f in
    match ok lo, ok hi with
    | true, true =>
        match Qcompare (f - lo) (hi - f) with
        | Lt => Some lo
        | Gt => Some hi
        | Eq => if Z.even c then Some lo else Some hi
        end
    | true, false => Some lo
    | false, true => Some hi
    | false, false => None
    end in
  let fix first ns := match ns with
                      | [] => f
                      | n :: ns' => match attempt n with Some x => Qred x | None => first ns' end
                      end in
  first (seq 1 9).

Definition shortest_decimal (f : Q) : Q :=
  match Qcompare f 0 with
  | Eq => 0
  | Gt => shortest_pos f
  | Lt => - shortest_pos (- f)
  end.

(** The JavaScript value of [(d)::real] for a [float8] distance [d]: the
    cast rounds [d] to [float4], PostgreSQL prints the result as its
    shortest decimal, and node-postgres reads it with [parseFloat]. *)
Definition pg_real (d : Q) : Q := to_float64 (shortest_decimal (to_float32 d)).

(** [a < b] on distances, as JavaScript's [row.cs < existing.cs]. *)
Definition Qltb (a b : Q) : bool := negb (Qle_bool b a).

(** A stable ascending sort on [cs]: [Array.prototype.sort] with the
    comparator [(a, b) => a.cs - b.cs] is stable, and SQL's
    [ORDER BY "cs"] admits this order as well. *)
Fixpoint insert_by_cs (x : SearchRow) (l : list SearchRow) : list SearchRow :=
  match l with
  | [] => [x]
  | y :: ys => if Qle_bool (cs y) (cs x) then y :: insert_by_cs x ys else x :: l
  end.

Definition sort_by_cs (l : list SearchRow) : list SearchRow :=
  fold_left (fun acc x => insert_by_cs x acc) l [].

(** Query 1: [wiki_rag.question AS Q JOIN wiki_rag.chunk AS C ON
    Q.chunk_id = C.chunk_id WHERE (Q.embedding <=> $1) <= $2 ORDER BY "cs"]. *)
Definition questionResult (qs : list QuestionRec) (cks : list ChunkRec)
    (threshold : Q) : list SearchRow :=
  sort_by_cs
    (flat_map (fun q =>
       flat_map (fun c =>
         if Z.eqb (q_chunk_id q) (c_chunk_id c) then
           [mkRow (q_chunk_id q) (q_wiki_id q) (Some (q_text q)) (c_text c) (pg_real (q_dist q))]
         else [])
       cks)
     (filter (fun q => Qle_bool (q_dist q) threshold) qs)).

(** Query 2: [FROM wiki_rag.chunk WHERE (embedding <=> $1) <= $2 ORDER BY "cs"]. *)
Definition chunkResult (cks : list ChunkRec) (threshold : Q) : list SearchRow :=
  sort_by_cs
    (map (fun c => mkRow (c_chunk_id c) (c_wiki_id c) None (c_text c) (pg_real (c_dist c)))
       (filter (fun c => Qle_bool (c_dist c) threshold) cks)).

(** [Map<number, row>]: an association list in insertion order;
    [set] on a present key keeps the key's position. *)
Definition ChunkMap := list (Z * SearchRow).

Fixpoint map_get (k : Z) (m : ChunkMap) : option SearchRow :=
  match m with
  | [] => None
  | (k', v) :: m' => if Z.eqb k k' then Some v else map_get k m'
  end.

Fixpoint map_set (k : Z) (v : SearchRow) (m : ChunkMap) : ChunkMap :=
  match m with
  | [] => [(k, v)]
  | (k', v') :: m' => if Z.eqb k k' then (k', v) :: m' else (k', v') :: map_set k v m'
  end.

(** The body of [for (const row of allResults)]. *)
Definition merge_step (m : ChunkMap) (row : SearchRow) : ChunkMap :=
  match map_get (chunk_id row) m with
  | None => map_set (chunk_id row) row m
  | Some existing =>
      if Qltb (cs row) (cs existing) then map_set (chunk_id row) row m else m
  end.

Definition allResults (qs : list QuestionRec) (cks : list ChunkRec) (threshold : Q)
  : list SearchRow :=
  questionResult qs cks threshold ++ chunkResult cks threshold.

Definition chunkMap (qs : list QuestionRec) (cks : list ChunkRec) (threshold : Q)
  : ChunkMap :=
  fold_left merge_step (allResults qs cks threshold) [].

(** [Array.from(chunkMap.values()).sort(...).slice(0, chunksLimit)]. *)
Definition searchSimilar (qs : list QuestionRec) (cks : list ChunkRec)
    (threshold : Q) (chunksLimit : nat) : list SearchRow :=
  firstn chunksLimit (sort_by_cs (map snd (chunkMap qs cks threshold))).

End Retrieval.

(* ------------------------------------------------------------------ *)
(** ** Embedding Batcher: [getEmbeddingsForTexts] *)

Module Embeddings.

(** An embedding vector ([number[]]); the failure placeholder is [[]]. *)
Definition vector := list Q.

Definition MAX_TOKENS_PER_BATCH : N := 8000.

(** The state threaded through the outer loop: the arrays [embeddings]
    and [failedIndices], and the log of requests issued to the embedding
    service as pairs [(batchNumber, currentBatchIndices)]. *)
Record BatchState := mkBatchState {
  st_embeddings : list vector;
  st_failed : list nat;
  st_sent : list (nat * list nat)
}.

(** The value of [getEmbeddingsForTexts]; [failedIndices] is [undefined]
    ([None]) when no index failed. *)
Record BatchEmbeddingResult := mkBatchEmbeddingResult {
  embeddings : list vector;
  failedIndices : option (list nat)
}.

Section Batcher.

(** [stringTokens(t) || 0], the tokenizer's estimate (external). *)
Variable stringTokens : string -> N.

(** [openai.embeddings.create] for the [batchNumber]-th request with the
    given inputs: [None] when the call throws, [Some data] otherwise. *)
Variable embeddings_create : nat -> list string -> option (list vector).

Variable texts : list string.

Definition tokenCounts : list N := map stringTokens texts.

Definition texts_of (idxs : list nat) : list string :=
  map (fun j => nth j texts EmptyString) idxs.

(** The inner [while (i < texts.length)] loop building one batch; the
    fuel bounds the number of iterations (each one advances [i]). *)
Fixpoint build_batch (fuel : nat) (i : nat) (batch : list nat) (cur : N)
  : list nat * N * nat :=
  match fuel with
  | O => (batch, cur, i)
  | S f =>
      if Nat.ltb i (List.length texts) then
        let tks := nth i tokenCounts 0%N in
        if (MAX_TOKENS_PER_BATCH <? tks)%N && Nat.eqb (List.length batch) 0 then
          (batch ++ [i], cur, S i)
        else if (MAX_TOKENS_PER_BATCH <? tks + cur)%N then (batch, cur, i)
        else build_batch f (S i) (batch ++ [i]) (cur + tks)%N
      else (batch, cur, i)
  end.

(** The [try]/[catch] around one request: on success the vectors are
    appended in order; on an unexpected response or a thrown error every
    index of the batch is recorded as failed with an empty vector. *)
Definition process_batch (batchNumber : nat) (idxs : list nat) (st : BatchState)
  : BatchState :=
  let sent := st_sent st ++ [(batchNumber, idxs)] in
  let fail :=
    mkBatchState (st_embeddings st ++ map (fun _ => []) idxs)
                 (st_failed st ++ idxs) sent in
  match embeddings_create batchNumber (texts_of idxs) with
  | Some data =>
      if Nat.eqb (List.length data) (List.length idxs)
      then mkBatchState (st_embeddings st ++ data) (st_failed st) sent
      else fail
  | None => fail
  end.

(** The outer [while (i < texts.length)] loop. *)
Fixpoint batch_loop (fuel : nat) (i : nat) (batchNumber : nat) (st : BatchState)
  : BatchState :=
  match fuel with
  | O => st
  | S f =>
      if Nat.ltb i (List.length texts) then
        let '(currentBatch, _, i') := build_batch (List.length texts) i [] 0%N in
        if Nat.ltb 0 (List.length currentBatch) then
          batch_loop f i' (S batchNumber) (process_batch (S batchNumber) currentBatch st)
        else batch_loop f i' batchNumber st
      else st
  end.

Definition run : BatchState :=
  batch_loop (List.length texts) 0 0 (mkBatchState [] [] []).

Definition getEmbeddingsForTexts : BatchEmbeddingResult :=
  match texts with
  | [] => mkBatchEmbeddingResult [] None
  | _ =>
      let st := run in
      mkBatchEmbeddingResult (st_embeddings st)
        (if Nat.ltb 0 (List.length (st_failed st)) then Some (st_failed st) else None)
  end.

(** The request groups formed by a call (empty when [texts] is empty). *)
Definition requestGroups : list (nat * list nat) :=
  match texts with
  | [] => []
  | _ => st_sent run
  end.

End Batcher.

End Embeddings.

(* ------------------------------------------------------------------ *)
(** ** Characters shared by [String.prototype.trim] and the regex [\s] *)

Module Text.
Local Open Scope nat_scope.

(** The ASCII white space of [trim] and [\s]: tab, line feed, vertical
    tab, form feed, carriage return and space. *)
Definition is_ws (c : ascii) : bool :=
  match nat_of_ascii c with
  | 9 | 10 | 11 | 12 | 13 | 32 => true
  | _ => false
  end.

Fixpoint drop_ws (l : list ascii) : list ascii :=
  match l with
  | [] => []
  | c :: l' => if is_ws c then drop_ws l' else l
  end.

(** [s.trim()] on a string given as its characters. *)
Definition trim (l : list ascii) : list ascii := rev (drop_ws (rev (drop_ws l))).

End Text.

(* ------------------------------------------------------------------ *)
(** ** Enricher: [generateQuestionsForChunk] *)

Module Questions.
Import Text.
Local Open Scope nat_scope.
Local Set Warnings "-register-all".

(** A value produced by [JSON.parse]. *)
Inductive JsonValue :=
| JNull
| JBool (b : bool)
| JNumber (z : Z)
| JString (s : string)
| JArray (items : list JsonValue)
| JObject (fields : list (string * JsonValue)).

(** What [chatCompletionRequest] does: throw, or answer with its parsed
    [resultJson] ([None] for [undefined]). *)
Inductive ChatOutcome :=
| ChatThrows
| ChatAnswer (resultJson : option JsonValue).

(** JavaScript truthiness of a possibly [undefined] value. *)
Definition truthy (v : option JsonValue) : bool :=
  match v with
  | None | Some JNull => false
  | Some (JBool b) => b
  | Some (JNumber z) => negb (Z.eqb z 0)
  | Some (JString s) => negb (String.eqb s EmptyString)
  | Some (JArray _) | Some (JObject _) => true
  end.

Fixpoint assoc_last (k : string) (fs : list (string * JsonValue)) : option JsonValue :=
  match fs with
  | [] => None
  | (k', v) :: fs' =>
      match assoc_last k fs' with
      | Some w => Some w
      | None => if String.eqb k k' then Some v else None
      end
  end.

(** Property access [v.k]: [JSON.parse] keeps the last of duplicate keys;
    a property of a non-object is [undefined]. *)
Definition get_prop (v : JsonValue) (k : string) : option JsonValue :=
  match v with
  | JObject fs => assoc_last k fs
  | _ => None
  end.

Definition str_trim (s : string) : string :=
  string_of_list_ascii (trim (list_ascii_of_string s)).

(** [.filter(q => typeof q === 'string' && q.trim().length > 0)
     .map(q => q.trim()).filter(q => q.length >= 10).slice(0, maxQuestions)]. *)
Definition validate_questions (maxQuestions : nat) (items : list JsonValue) : list string :=
  firstn maxQuestions
    (filter (fun q => Nat.leb 10 (String.length q))
       (map str_trim
          (flat_map (fun v => match v with
                              | JString s => if Nat.ltb 0 (String.length (str_trim s))
                                             then [s] else []
                              | _ => []
                              end) items))).

(** The [questions] field of the result; [minQuestions], [context] and the
    statistics do not influence it. *)
Definition generateQuestionsForChunk (chunkText : string) (maxQuestions : nat)
    (llm : ChatOutcome) : list string :=
  if Nat.eqb (String.length (str_trim chunkText)) 0 then []
  else
    match llm with
    | ChatThrows => [chunkText]
    | ChatAnswer parsedResponse =>
        if negb (truthy parsedResponse) then [chunkText]
        else
          match parsedResponse with
          | Some v =>
              match get_prop v "questions"%string with
              | Some (JArray items) => validate_questions maxQuestions items
              | _ => [chunkText]
              end
          | None => [chunkText]
          end
    end.

End Questions.

(* ------------------------------------------------------------------ *)
(** ** Segmenter fallback: [fallbackTextSplitting] *)

Module Chunker.
Import Text.
Local Open Scope nat_scope.

Definition nl : ascii := ascii_of_nat 10.
Definition sp : ascii := ascii_of_nat 32.

(** The maximal run of white space at the head of a list. *)
Fixpoint ws_run (l : list ascii) : list ascii * list ascii :=
  match l with
  | c :: l' => if is_ws c then let '(r, rest) := ws_run l' in (c :: r, rest) else ([], l)
  | [] => ([], [])
  end.

(** For a white-space run, the part after its last line feed, if it has one. *)
Fixpoint after_last_nl (run : list ascii) : option (list ascii) :=
  match run with
  | [] => None
  | c :: r =>
      match after_last_nl r with
      | Some post => Some post
      | None => if Ascii.eqb c nl then Some r else None
      end
  end.

(** [text.split(/\n\s*\n/)]: the leftmost match starts at a line feed that
    is followed by white space holding another line feed, and the greedy
    [\s*] makes it end at the last line feed of that run. The fuel bounds
    the number of characters read. *)
Fixpoint split_paragraphs_aux (fuel : nat) (l cur : list ascii) : list (list ascii) :=
  match fuel with
  | O => [rev cur ++ l]
  | S f =>
      match l with
      | [] => [rev cur]
      | c :: l' =>
          if Ascii.eqb c nl then
            let '(run, rest) := ws_run l' in
            match after_last_nl run with
            | Some post => rev cur :: split_paragraphs_aux f (post ++ rest) []
            | None => split_paragraphs_aux f l' (c :: cur)
            end
          else split_paragraphs_aux f l' (c :: cur)
      end
  end.

Definition split_paragraphs (text : list ascii) : list (list ascii) :=
  split_paragraphs_aux (List.length text) text [].

Definition is_punct (c : ascii) : bool :=
  match nat_of_ascii c with
  | 33 | 46 | 63 => true
  | _ => false
  end.

(** [paragraph.split(/[.!?]+/)]: cut at every maximal run of [.], [!], [?]. *)
Fixpoint split_sentences_aux (l cur : list ascii) (in_run : bool) : list (list ascii) :=
  match l with
  | [] => [rev cur]
  | c :: l' =>
      if is_punct c then
        if in_run then split_sentences_aux l' cur true
        else rev cur :: split_sentences_aux l' [] true
      else split_sentences_aux l' (c :: cur) false
  end.

Definition split_sentences (p : list ascii) : list (list ascii) :=
  split_sentences_aux p [] false.

Definition nonblank (s : list ascii) : bool := Nat.ltb 0 (List.length (trim s)).

(** The inner [for (const sentence of sentences)] loop, on
    [(chunks, sentenceChunk)]. *)
Definition sentence_step (maxChunkLength : nat) (st : list (list ascii) * list ascii)
    (sentence : list ascii) : list (list ascii) * list ascii :=
  let '(chunks, sentenceChunk) := st in
  let '(chunks, sentenceChunk) :=
    if Nat.ltb maxChunkLength (List.length sentenceChunk + List.length sentence) then
      if nonblank sentenceChunk then (chunks ++ [trim sentenceChunk], [])
      else (chunks, sentenceChunk)
    else (chunks, sentenceChunk) in
  (chunks, sentenceChunk ++ sentence ++ [ascii_of_nat 46; sp]).

(** The outer [for (const paragraph of paragraphs)] loop, on
    [(chunks, currentChunk)]. *)
Definition paragraph_step (maxChunkLength : nat) (st : list (list ascii) * list ascii)
    (paragraph : list ascii) : list (list ascii) * list ascii :=
  let '(chunks, currentChunk) := st in
  if Nat.ltb maxChunkLength (List.length currentChunk + List.length paragraph) then
    let '(chunks, currentChunk) :=
      if nonblank currentChunk then (chunks ++ [trim currentChunk], [])
      else (chunks, currentChunk) in
    if Nat.ltb maxChunkLength (List.length paragraph) then
      let sentences := filter nonblank (split_sentences paragraph) in
      let '(chunks, sentenceChunk) :=
        fold_left (sentence_step maxChunkLength) sentences (chunks, []) in
      if nonblank sentenceChunk then (chunks, trim sentenceChunk)
      else (chunks, currentChunk)
    else (chunks, paragraph)
  else
    if Nat.ltb 0 (List.length currentChunk)
    then (chunks, currentChunk ++ [nl; nl] ++ paragraph)
    else (chunks, paragraph).

Definition paragraphs (text : list ascii) : list (list ascii) :=
  filter nonblank (split_paragraphs text).

Definition fallbackTextSplitting (text : list ascii) (maxChunkLength : nat)
  : list (list ascii) :=
  let '(chunks, currentChunk) :=
    fold_left (paragraph_step maxChunkLength) (paragraphs text) ([], []) in
  if nonblank currentChunk then chunks ++ [trim currentChunk] else chunks.


(** Observations used to state the properties of the fallback splitter. *)

(** A text with its white space removed. *)
Definition strip_ws (l : list ascii) : list ascii := filter (fun c => negb (is_ws c)) l.

(** What a non-blank paragraph contributes to the fragments once white
    space is ignored: itself, or, above the budget, its non-blank sentences
    each closed by a full stop. *)
Definition expected (maxChunkLength : nat) (p : list ascii) : list ascii :=
  if Nat.ltb maxChunkLength (List.length p) then
    List.concat (map (fun s => strip_ws s ++ [ascii_of_nat 46])
                   (filter nonblank (split_sentences p)))
  else strip_ws p.

(** The text a loop state has produced so far, white space ignored. *)
Definition observed (st : list (list ascii) * list ascii) : list ascii :=
  List.concat (map strip_ws (fst st)) ++ strip_ws (snd st).

End Chunker.

(* ------------------------------------------------------------------ *)
(** ** Pipeline: the saving loops and the progress reports of [processPage] *)

Module Pipeline.
Local Open Scope nat_scope.

(** A row written by [insertQuestion(cid, pageId, qText, qEmbedding)]
    (the page id is the same for the whole run and is left out). *)
Record QuestionRow := mkQuestionRow {
  row_chunk_id : Z;
  row_text : string;
  row_embedding : list Q
}.

Section Saving.

(** [insertChunk] for the fragment of index [ci]: the id it returns, or
    [None] when it throws. *)
Variable insertChunk : nat -> option Z.
(** [insertQuestion] for question [k] of fragment [ci]: [true] when it
    returns, [false] when it throws. *)
Variable insertQuestion : nat -> nat -> bool.
(** [questionsBatch.embeddings], the embeddings of the flat list of
    questions. *)
Variable questionEmbeddings : list (list Q).

(** The first loop: [chunkIds.push(chunkId)], or [-1] when the insert
    throws. *)
Definition saveChunks (chunkData : list (list string)) : list Z :=
  map (fun ci => match insertChunk ci with
                 | Some chunkId => chunkId
                 | None => (-1)%Z
                 end)
      (seq 0 (List.length chunkData)).

(** The inner loop over the questions of fragment [ci], from [k]:
    [questionsBatch.embeddings[qOffset + k] || []]. *)
Fixpoint saveChunkQuestions (ci : nat) (cid : Z) (qs : list string)
    (qOffset k : nat) : list QuestionRow :=
  match qs with
  | [] => []
  | qText :: rest =>
      let qEmbedding := nth (qOffset + k) questionEmbeddings [] in
      (if insertQuestion ci k then [mkQuestionRow cid qText qEmbedding] else [])
        ++ saveChunkQuestions ci cid rest qOffset (S k)
  end.

(** The outer loop over the fragments, from index [ci]: a fragment whose
    id is [-1] is skipped, [qOffset] is advanced by its question count in
    both cases. *)
Fixpoint saveQuestions (chunkIds : list Z) (ci : nat)
    (chunkData : list (list string)) (qOffset : nat) : list QuestionRow :=
  match chunkData with
  | [] => []
  | qs :: rest =>
      let count := List.length qs in
      let cid := nth ci chunkIds (-1)%Z in
      if Z.eqb cid (-1) then saveQuestions chunkIds (S ci) rest (qOffset + count)
      else saveChunkQuestions ci cid qs qOffset 0
             ++ saveQuestions chunkIds (S ci) rest (qOffset + count)
  end.

(** Both loops; [chunkData] holds the questions of each fragment. Returns
    [chunkIds] and the question rows written, in order. *)
Definition savePage (chunkData : list (list string)) : list Z * list QuestionRow :=
  let chunkIds := saveChunks chunkData in
  (chunkIds, saveQuestions chunkIds 0 chunkData 0).

(** The ids of the fragments stored by the first loop. *)
Definition storedFragmentIds (chunkData : list (list string)) : list Z :=
  flat_map (fun ci => match insertChunk ci with
                      | Some chunkId => [chunkId]
                      | None => []
                      end)
           (seq 0 (List.length chunkData)).

End Saving.

(** Position of the first question of fragment [ci] in
    [questionEmbeddingInputs]. *)
Definition questionOffset (chunkData : list (list string)) (ci : nat) : nat :=
  List.length (List.concat (firstn ci chunkData)).

(** The stages of [PipelineProgress]. *)
Inductive Stage :=
  | Fetching | Cleaning | Chunking | QuestionsStage | EmbeddingsStage
  | Saving | Completed | Error.

(** The statements of the [try] block of [processPage] that may throw. *)
Inductive FailurePoint :=
  | FetchFails      (* fetchPageHtml *)
  | CleanFails      (* cleanHtml *)
  | SplitFails      (* splitIntoChunks *)
  | MetadataFails   (* addSourceMetadata *)
  | SaveFails.      (* deleteByWikiId, getEmbeddingsForTexts *)

Definition fails_at (failure : option FailurePoint) (p : FailurePoint) : bool :=
  match failure, p with
  | Some FetchFails, FetchFails | Some CleanFails, CleanFails
  | Some SplitFails, SplitFails | Some MetadataFails, MetadataFails
  | Some SaveFails, SaveFails => true
  | _, _ => false
  end.

(** [reportProgress]: the value is clamped to [0 .. 100]. *)
Definition reportProgress (stage : Stage) (progress : Q) : Stage * Q :=
  (stage, Qmax 0 (Qmin 100 progress)).

(** [50 + (index / chunkResult.chunks.length) * 30]. *)
Definition questionProgress (n index : nat) : Q :=
  (50 + (inject_Z (Z.of_nat index) / inject_Z (Z.of_nat n)) * 30)%Q.

(** The reports of one run of [processPage] with [n] fragments. [failure]
    is the statement of the [try] block that throws, if any; [completed]
    lists the indices of the question tasks whose [generateQuestionsForChunk]
    resolved, in the order in which they resolved under [Promise.all]. *)
Definition processPage_progress (failure : option FailurePoint) (n : nat)
    (completed : list nat) : list (Stage * Q) :=
  reportProgress Fetching 10 ::
  if fails_at failure FetchFails then [reportProgress Error 0] else
  reportProgress Cleaning 20 ::
  if fails_at failure CleanFails then [reportProgress Error 0] else
  reportProgress Chunking 30 ::
  if fails_at failure SplitFails then [reportProgress Error 0] else
  if Nat.eqb n 0 then [] else
  if fails_at failure MetadataFails then [reportProgress Error 0] else
  reportProgress QuestionsStage 50 ::
  map (fun index => reportProgress QuestionsStage (questionProgress n index)) completed
  ++ reportProgress EmbeddingsStage 80 ::
  if fails_at failure SaveFails then [reportProgress Error 0] else
  [reportProgress Saving 95; reportProgress Completed 100].

(** Observations on a sequence of reports. *)
Fixpoint nondecreasing (l : list Q) : bool :=
  match l with
  | x :: (y :: _) as rest => Qle_bool x y && nondecreasing rest
  | _ => true
  end.

(** Two reports of different stages are in non-decreasing order. *)
Definition stage_mono (a b : Stage * Q) : Prop :=
  fst a = fst b \/ (snd a <= snd b)%Q.

End Pipeline.

(* ------------------------------------------------------------------ *)
(** ** Segmenter: [splitIntoChunks] of src/server/server.ts *)

Module Splitter.
Import Text Questions Chunker.
Local Open Scope nat_scope.

Section Split.

(** [CHUNK_CHARS_LIMIT], imported from the constants module. *)
Variable CHUNK_CHARS_LIMIT : nat.

(** [fallbackTextSplitting(cleanedHtml, CHUNK_CHARS_LIMIT)]. *)
Definition fallbackChunks (cleanedHtml : string) : list string :=
  map string_of_list_ascii
    (fallbackTextSplitting (list_ascii_of_string cleanedHtml) CHUNK_CHARS_LIMIT).

(** [.filter(chunk => typeof chunk === 'string' && chunk.trim().length > 0)
     .map(chunk => chunk.trim())]. *)
Definition validate_chunks (items : list JsonValue) : list string :=
  map str_trim
    (flat_map (fun v => match v with
                        | JString s => if Nat.ltb 0 (String.length (str_trim s))
                                       then [s] else []
                        | _ => []
                        end) items).

(** The [chunks] field of the result; [llm] is what [chatCompletionRequest]
    does. Every [throw] of the [try] block lands in the fallback. *)
Definition splitIntoChunks (cleanedHtml : string) (llm : ChatOutcome) : list string :=
  if Nat.eqb (String.length (str_trim cleanedHtml)) 0 then []
  else if Nat.ltb (String.length cleanedHtml) CHUNK_CHARS_LIMIT then [cleanedHtml]
  else
    match llm with
    | ChatThrows => fallbackChunks cleanedHtml
    | ChatAnswer parsedResponse =>
        if negb (truthy parsedResponse) then fallbackChunks cleanedHtml
        else
          match parsedResponse with
          | Some v =>
              match get_prop v "chunks"%string with
              | Some (JArray items) => validate_chunks items
              | _ => fallbackChunks cleanedHtml
              end
          | None => fallbackChunks cleanedHtml
          end
    end.

End Split.

End Splitter.

(* ------------------------------------------------------------------ *)
(** ** [addSourceMetadata] of src/server/server.ts *)

Module Metadata.
Local Open Scope string_scope.

(** The double quote character. *)
Definition dq : string := String (ascii_of_nat 34) EmptyString.

(** The template [<source title="${pageTitle}" url="${baseUrl}/pages/viewpage.action?pageId=${pageId}" />]. *)
Definition sourcePrefix (pageTitle pageId baseUrl : string) : string :=
  "<source title=" ++ dq ++ pageTitle ++ dq ++ " url=" ++ dq ++ baseUrl
  ++ "/pages/viewpage.action?pageId=" ++ pageId ++ dq ++ " />".

(** [`${sourcePrefix}\n\n${chunk}`] for each chunk. *)
Definition addSourceMetadata (chunks : list string) (pageTitle pageId baseUrl : string)
  : list string :=
  map (fun chunk => sourcePrefix pageTitle pageId baseUrl
                    ++ String Chunker.nl (String Chunker.nl EmptyString) ++ chunk) chunks.

End Metadata.

(* ------------------------------------------------------------------ *)
(** ** Batches of pages: [processPages] of src/server/api/indexing/pipeline.ts *)

Module PageBatches.
Local Open Scope nat_scope.

Section Batches.

Variable Page : Type.
Variable PipelineResult : Type.

(** [for (let i = 0; i < pages.length; i += batchSize)
       batches.push(pages.slice(i, i + batchSize))]; [None] when the loop
    has not ended after [fuel] iterations. *)
Fixpoint batches_loop (fuel : nat) (batchSize : nat) (pages : list Page) (i : nat)
  : option (list (list Page)) :=
  match fuel with
  | O => None
  | S f =>
      if Nat.ltb i (List.length pages) then
        match batches_loop f batchSize pages (i + batchSize) with
        | Some rest => Some (firstn batchSize (skipn i pages) :: rest)
        | None => None
        end
      else Some []
  end.

(** The batches, with one iteration more than a terminating loop can take. *)
Definition makeBatches (batchSize : nat) (pages : list Page) : option (list (list Page)) :=
  batches_loop (S (List.length pages)) batchSize pages 0.

(** [batchIndex * batchSize + index + 1], the number logged for a page. *)
Definition globalIndex (batchSize batchIndex index : nat) : nat :=
  batchIndex * batchSize + index + 1.

(** [allResults]: the batches run one after the other, and [Promise.all]
    keeps the order of the pages of a batch; [processPage] is the result of
    the run of one page. *)
Definition processPages (processPage : Page -> PipelineResult) (batchSize : nat)
    (pages : list Page) : option (list PipelineResult) :=
  match makeBatches batchSize pages with
  | Some batches =>
      Some (fold_left (fun allResults batch => allResults ++ map processPage batch)
              batches [])
  | None => None
  end.

End Batches.

End PageBatches.

(* ------------------------------------------------------------------ *)
(** ** Indexing endpoints: src/server/server.ts, src/unnamed/part_006 and
    src/server/api/indexing/index-descendants.ts *)

Module Indexing.
Import Pipeline.
Local Open Scope nat_scope.

(** [getAuthToken]: the [Authorization] header ([None] when absent). *)
Definition getAuthToken (authorization : option string) : option string :=
  match authorization with
  | None => None
  | Some auth =>
      if String.eqb auth EmptyString then None
      else if String.prefix "Bearer "%string auth
      then Some (substring 7 (String.length auth - 7) auth)
      else None
  end.

Inductive TaskStatus := TaskQueued | TaskProcessing | TaskCompleted | TaskError.

Definition TaskStatus_eqb (a b : TaskStatus) : bool :=
  match a, b with
  | TaskQueued, TaskQueued | TaskProcessing, TaskProcessing
  | TaskCompleted, TaskCompleted | TaskError, TaskError => true
  | _, _ => false
  end.

(** [IndexingTask]; an absent optional field is [None]. *)
Record IndexingTask := mkIndexingTask {
  task_id : string;
  task_pageId : string;
  task_status : TaskStatus;
  task_error : option string;
  task_progress : option Q
}.

(** The object passed to the progress callback. [reportProgress] of
    [processPage] builds [{ pageId, stage, progress, message }]: its
    [error] field is never set. *)
Record PipelineProgress := mkPipelineProgress {
  pp_stage : Stage;
  pp_progress : Q;
  pp_error : option string
}.

Definition progressEvent (report : Stage * Q) : PipelineProgress :=
  mkPipelineProgress (fst report) (snd report) None.

Definition status_of_stage (s : Stage) : TaskStatus :=
  match s with
  | Completed => TaskCompleted
  | Error => TaskError
  | _ => TaskProcessing
  end.

(** The body of [if (task) { ... }] on the task found. *)
Definition apply_progress (progress : PipelineProgress) (t : IndexingTask) : IndexingTask :=
  mkIndexingTask (task_id t) (task_pageId t) (status_of_stage (pp_stage progress))
    (match pp_error progress with
     | Some e => if String.eqb e EmptyString then task_error t else Some e
     | None => task_error t
     end)
    (Some (pp_progress progress)).

(** The progress callback of the index handlers:
    [Array.from(indexingTasks.values()).find(t => t.pageId === pageId)] is
    the first task of that page in insertion order, and it is updated in
    place. The map's values are kept as a list in insertion order. *)
Fixpoint onProgress (pageId : string) (progress : PipelineProgress)
    (tasks : list IndexingTask) : list IndexingTask :=
  match tasks with
  | [] => []
  | t :: ts =>
      if String.eqb (task_pageId t) pageId then apply_progress progress t :: ts
      else t :: onProgress pageId progress ts
  end.

(** The reports of one [processPage] run delivered to the callback. *)
Definition deliverRun (pageId : string) (reports : list (Stage * Q))
    (tasks : list IndexingTask) : list IndexingTask :=
  fold_left (fun ts r => onProgress pageId (progressEvent r) ts) reports tasks.

(** The answer of the status handler. *)
Record QueueStatus := mkQueueStatus {
  queued : nat;
  processing : nat;
  completed : nat;
  errors : nat;
  recent_tasks : list IndexingTask
}.

Definition count_status (s : TaskStatus) (tasks : list IndexingTask) : nat :=
  List.length (filter (fun t => TaskStatus_eqb (task_status t) s) tasks).

(** [tasks.slice(-20)]. *)
Definition slice_last (n : nat) {A} (l : list A) : list A :=
  skipn (List.length l - n) l.

Definition statusHandler (tasks : list IndexingTask) : QueueStatus :=
  mkQueueStatus (count_status TaskQueued tasks) (count_status TaskProcessing tasks)
    (count_status TaskCompleted tasks) (count_status TaskError tasks)
    (slice_last 20 tasks).

(** A page of the request body; a missing or empty field is [""]. *)
Record PageItem := mkPageItem {
  item_id : string;
  item_title : string;
  item_spaceKey : string
}.

Definition truthy_str (s : string) : bool := negb (String.eqb s EmptyString).

Section Descendants.

(** [fetchDescendants(token, rootId, maxDepth)]: the [{ id, title }] of the
    descendants, or [None] when it throws. *)
Variable fetchDescendants : string -> option (list (string * string)).

(** [if (!seen.has(p.id)) { seen.add(p.id); pagesToIndex.push(p); }]. *)
Definition add_page (st : list string * list PageItem) (p : PageItem)
  : list string * list PageItem :=
  let '(seen, pagesToIndex) := st in
  if existsb (String.eqb (item_id p)) seen then st
  else (seen ++ [item_id p], pagesToIndex ++ [p]).

(** One iteration of [for (const root of roots)]. *)
Definition collect_root (st : list string * list PageItem) (root : PageItem)
  : list string * list PageItem :=
  if truthy_str (item_id root) && truthy_str (item_spaceKey root)
     && truthy_str (item_title root) then
    let st1 := add_page st root in
    match fetchDescendants (item_id root) with
    | Some descendants =>
        fold_left add_page
          (map (fun d => mkPageItem (fst d) (snd d) (item_spaceKey root)) descendants) st1
    | None => st1
    end
  else st.

Definition pagesToIndex (roots : list PageItem) : list PageItem :=
  snd (fold_left collect_root roots ([], [])).

End Descendants.

End Indexing.

(* ================================================================== *)
(** * Proofs *)

(** ** Generic list facts *)

Module ListFacts.

Lemma in_firstn {A} (n : nat) (l : list A) (x : A) :
  In x (firstn n l) -> In x l.
Proof.
  intro H. rewrite <- (firstn_skipn n l). apply in_or_app. now left.
Qed.

Lemma NoDup_firstn {A} (n : nat) (l : list A) :
  NoDup l -> NoDup (firstn n l).
Proof.
  intro H. rewrite <- (firstn_skipn n l) in H. now apply NoDup_app_remove_r in H.
Qed.

Lemma Sorted_firstn {A} (R : A -> A -> Prop) (n : nat) (l : list A) :
  Sorted R l -> Sorted R (firstn n l).
Proof.
  revert l. induction n as [|n IH]; intros l H; simpl; [constructor|].
  destruct l as [|a l]; [constructor|].
  inversion H as [|? ? Hs Hhd]; subst. constructor; [now apply IH|].
  destruct n, l; simpl; try constructor. now inversion Hhd.
Qed.

End ListFacts.

(** ** Retrieval *)

Module RetrievalFacts.
Import Retrieval ListFacts.

Definition cs_le (a b : SearchRow) : Prop := (cs a <= cs b)%Q.

Lemma insert_by_cs_perm (x : SearchRow) (l : list SearchRow) :
  Permutation (insert_by_cs x l) (x :: l).
Proof.
  induction l as [|y ys IH]; simpl; [auto|].
  destruct (Qle_bool (cs y) (cs x)); [|auto].
  eapply perm_trans; [apply perm_skip, IH|]. apply perm_swap.
Qed.

Lemma sort_by_cs_perm_acc (l acc : list SearchRow) :
  Permutation (fold_left (fun acc x => insert_by_cs x acc) l acc) (l ++ acc).
Proof.
  revert acc. induction l as [|x l IH]; intro acc; simpl; [auto|].
  eapply perm_trans; [apply IH|].
  eapply perm_trans; [apply Permutation_app_head, insert_by_cs_perm|].
  apply Permutation_sym, Permutation_middle.
Qed.

Lemma sort_by_cs_perm (l : list SearchRow) : Permutation (sort_by_cs l) l.
Proof.
  unfold sort_by_cs. rewrite <- (app_nil_r l) at 2. apply sort_by_cs_perm_acc.
Qed.

Lemma insert_by_cs_hd (y x : SearchRow) (l : list SearchRow) :
  HdRel cs_le y l -> cs_le y x -> HdRel cs_le y (insert_by_cs x l).
Proof.
  destruct l as [|z zs]; simpl; intros H Hyx; [now constructor|].
  destruct (Qle_bool (cs z) (cs x)); constructor; [now inversion H | exact Hyx].
Qed.

Lemma insert_by_cs_sorted (x : SearchRow) (l : list SearchRow) :
  Sorted cs_le l -> Sorted cs_le (insert_by_cs x l).
Proof.
  induction l as [|y ys IH]; simpl; intro H; [repeat constructor|].
  inversion H as [|? ? Hs Hhd]; subst.
  destruct (Qle_bool (cs y) (cs x)) eqn:E.
  - apply Qle_bool_iff in E. constructor; [now apply IH|].
    now apply insert_by_cs_hd.
  - assert (Hlt : (cs x < cs y)%Q).
    { apply Qnot_le_lt. intro Hc. apply Qle_bool_iff in Hc. congruence. }
    constructor; [exact H|]. constructor. unfold cs_le. now apply Qlt_le_weak.
Qed.

Lemma sort_by_cs_sorted (l : list SearchRow) : Sorted cs_le (sort_by_cs l).
Proof.
  unfold sort_by_cs.
  assert (G : forall acc, Sorted cs_le acc ->
            Sorted cs_le (fold_left (fun acc x => insert_by_cs x acc) l acc)).
  { induction l as [|x l IH]; intros acc Hacc; simpl; [exact Hacc|].
    apply IH, insert_by_cs_sorted, Hacc. }
  apply G. constructor.
Qed.

(** Facts on the insertion-ordered map. *)

Lemma map_get_set (k k' : Z) (v : SearchRow) (m : ChunkMap) :
  map_get k' (map_set k v m) = if Z.eqb k' k then Some v else map_get k' m.
Proof.
  induction m as [|[k0 v0] m IH]; simpl; [reflexivity|].
  destruct (Z.eqb k k0) eqn:E; simpl.
  - apply Z.eqb_eq in E; subst k0. destruct (Z.eqb k' k); reflexivity.
  - rewrite IH. destruct (Z.eqb k' k0) eqn:E1; [|reflexivity].
    apply Z.eqb_eq in E1; subst k0.
    destruct (Z.eqb k' k) eqn:E2; [|reflexivity].
    apply Z.eqb_eq in E2; subst. now rewrite Z.eqb_refl in E.
Qed.

Lemma map_get_in (k : Z) (v : SearchRow) (m : ChunkMap) :
  map_get k m = Some v -> In (k, v) m.
Proof.
  induction m as [|[k0 v0] m IH]; simpl; [discriminate|].
  destruct (Z.eqb k k0) eqn:E; intro H.
  - apply Z.eqb_eq in E; subst. inversion H; subst. now left.
  - right. now apply IH.
Qed.

Lemma in_map_set (k : Z) (v : SearchRow) (m : ChunkMap) (kv : Z * SearchRow) :
  In kv (map_set k v m) -> kv = (k, v) \/ In kv m.
Proof.
  induction m as [|[k0 v0] m IH]; simpl; intro H.
  - destruct H as [H|[]]. now left.
  - destruct (Z.eqb k k0) eqn:E; simpl in H.
    + apply Z.eqb_eq in E; subst. destruct H as [H|H]; [now left|right; now right].
    + destruct H as [H|H]; [right; now left|].
      destruct (IH H); [now left|right; now right].
Qed.

Lemma in_fst_map_set (k k' : Z) (v : SearchRow) (m : ChunkMap) :
  In k' (map fst (map_set k v m)) -> k' = k \/ In k' (map fst m).
Proof.
  intro H. apply in_map_iff in H as [[k1 v1] [Hk Hin]]. simpl in Hk; subst.
  destruct (in_map_set _ _ _ _ Hin) as [E|E].
  - inversion E; now left.
  - right. apply in_map_iff. now exists (k', v1).
Qed.

Lemma map_set_nodup (k : Z) (v : SearchRow) (m : ChunkMap) :
  NoDup (map fst m) -> NoDup (map fst (map_set k v m)).
Proof.
  induction m as [|[k0 v0] m IH]; simpl; intro H.
  - repeat constructor; simpl; tauto.
  - inversion H as [|? ? Hn Hd]; subst.
    destruct (Z.eqb k k0) eqn:E; simpl; constructor; auto.
    intro Hin. apply in_fst_map_set in Hin as [Hin|Hin]; [|contradiction].
    subst. now rewrite Z.eqb_refl in E.
Qed.

Lemma nodup_fst_unique (m : ChunkMap) (k : Z) (a b : SearchRow) :
  NoDup (map fst m) -> In (k, a) m -> In (k, b) m -> a = b.
Proof.
  induction m as [|[k0 v0] m IH]; simpl; [tauto|].
  intros Hd Ha Hb. inversion Hd as [|? ? Hn Hd']; subst.
  destruct Ha as [Ha|Ha], Hb as [Hb|Hb].
  - inversion Ha; inversion Hb; congruence.
  - inversion Ha; subst. exfalso. apply Hn. apply in_map_iff. now exists (k, b).
  - inversion Hb; subst. exfalso. apply Hn. apply in_map_iff. now exists (k, a).
  - now apply IH.
Qed.

(** The invariant of the merge loop after processing the rows [P]: keys
    are unique, each entry is a processed row stored under its own
    [chunk_id], and each processed row's key holds a distance no larger. *)
Definition merge_inv (m : ChunkMap) (P : list SearchRow) : Prop :=
  NoDup (map fst m) /\
  (forall k v, In (k, v) m -> chunk_id v = k /\ In v P) /\
  (forall r, In r P -> exists v, map_get (chunk_id r) m = Some v /\ (cs v <= cs r)%Q).

Lemma Qltb_true (a b : Q) : Qltb a b = true -> (a < b)%Q.
Proof.
  unfold Qltb. intro H. apply negb_true_iff in H. apply Qnot_le_lt.
  intro Hc. apply Qle_bool_iff in Hc. congruence.
Qed.

Lemma Qltb_false (a b : Q) : Qltb a b = false -> (b <= a)%Q.
Proof.
  unfold Qltb. intro H. apply negb_false_iff in H. now apply Qle_bool_iff.
Qed.

Lemma merge_set_inv (m : ChunkMap) (P : list SearchRow) (row : SearchRow) :
  merge_inv m P ->
  (forall v, map_get (chunk_id row) m = Some v -> (cs row <= cs v)%Q) ->
  merge_inv (map_set (chunk_id row) row m) (P ++ [row]).
Proof.
  intros [Hd [Hin Hget]] Hbetter. split; [|split].
  - now apply map_set_nodup.
  - intros k v H. apply in_map_set in H as [H|H].
    + inversion H; subst. split; [reflexivity|]. apply in_or_app; right; now left.
    + destruct (Hin _ _ H). split; [assumption|]. apply in_or_app; now left.
  - intros r Hr. rewrite map_get_set.
    destruct (Z.eqb (chunk_id r) (chunk_id row)) eqn:E.
    + exists row. split; [reflexivity|].
      apply in_app_or in Hr as [Hr|[Hr|[]]]; [|subst; apply Qle_refl].
      destruct (Hget r Hr) as [v [Hv Hle]].
      apply Z.eqb_eq in E. rewrite E in Hv.
      eapply Qle_trans; [apply Hbetter, Hv|exact Hle].
    + apply in_app_or in Hr as [Hr|[Hr|[]]].
      * now apply Hget.
      * subst. now rewrite Z.eqb_refl in E.
Qed.

Lemma merge_step_inv (m : ChunkMap) (P : list SearchRow) (row : SearchRow) :
  merge_inv m P -> merge_inv (merge_step m row) (P ++ [row]).
Proof.
  intro H. unfold merge_step.
  destruct (map_get (chunk_id row) m) as [e|] eqn:G.
  - destruct (Qltb (cs row) (cs e)) eqn:L.
    + apply merge_set_inv; [exact H|].
      intros v Hv. rewrite G in Hv. inversion Hv; subst.
      now apply Qlt_le_weak, Qltb_true.
    + destruct H as [Hd [Hin Hget]]. split; [exact Hd|split].
      * intros k v Hkv. destruct (Hin _ _ Hkv). split; [assumption|].
        apply in_or_app; now left.
      * intros r Hr. apply in_app_or in Hr as [Hr|[Hr|[]]]; [now apply Hget|].
        subst. exists e. split; [exact G|]. now apply Qltb_false.
  - apply merge_set_inv; [exact H|]. intros v Hv. congruence.
Qed.

Lemma merge_fold_inv (l : list SearchRow) (m : ChunkMap) (P : list SearchRow) :
  merge_inv m P -> merge_inv (fold_left merge_step l m) (P ++ l).
Proof.
  revert m P. induction l as [|x l IH]; intros m P H; simpl.
  - now rewrite app_nil_r.
  - replace (P ++ x :: l) with ((P ++ [x]) ++ l) by now rewrite <- app_assoc.
    apply IH, merge_step_inv, H.
Qed.

Lemma merge_inv_nil : merge_inv [] [].
Proof.
  split; [constructor|split]; simpl; tauto.
Qed.

Lemma chunkMap_inv (qs : list QuestionRec) (cks : list ChunkRec) (t : Q) :
  merge_inv (chunkMap qs cks t) (allResults qs cks t).
Proof.
  unfold chunkMap. change (allResults qs cks t) with ([] ++ allResults qs cks t).
  apply merge_fold_inv, merge_inv_nil.
Qed.

Lemma keys_are_ids (m : ChunkMap) :
  (forall k v, In (k, v) m -> chunk_id v = k) ->
  map chunk_id (map snd m) = map fst m.
Proof.
  induction m as [|[k v] m IH]; simpl; intro H; [reflexivity|].
  rewrite (H k v (or_introl eq_refl)). f_equal.
  apply IH. intros k' v' Hin. apply (H k' v'). now right.
Qed.

Lemma searchSimilar_entry (qs : list QuestionRec) (cks : list ChunkRec) (t : Q)
    (n : nat) (r : SearchRow) :
  In r (searchSimilar qs cks t n) -> In (chunk_id r, r) (chunkMap qs cks t).
Proof.
  unfold searchSimilar. intro H. apply in_firstn in H.
  apply (Permutation_in _ (sort_by_cs_perm _)) in H.
  apply in_map_iff in H as [[k v] [Hv Hin]]. simpl in Hv; subst v.
  destruct (chunkMap_inv qs cks t) as [_ [Hi _]].
  destruct (Hi _ _ Hin) as [Hk _]. now rewrite Hk.
Qed.

Lemma questionResult_rows (qs : list QuestionRec) (cks : list ChunkRec) (t : Q)
    (r : SearchRow) :
  In r (questionResult qs cks t) ->
  (exists d, (d <= t)%Q /\ cs r = pg_real d) /\ exists txt, question r = Some txt.
Proof.
  unfold questionResult. intro H.
  apply (Permutation_in _ (sort_by_cs_perm _)) in H.
  apply in_flat_map in H as [q [Hq Hr]]. apply filter_In in Hq as [_ Hq].
  apply in_flat_map in Hr as [c [_ Hr]].
  destruct (Z.eqb (q_chunk_id q) (c_chunk_id c)); [|destruct Hr].
  destruct Hr as [Hr|[]]; subst r; simpl.
  split; [exists (q_dist q); split; [now apply Qle_bool_iff|reflexivity]|].
  now exists (q_text q).
Qed.

Lemma chunkResult_rows (cks : list ChunkRec) (t : Q) (r : SearchRow) :
  In r (chunkResult cks t) ->
  (exists d, (d <= t)%Q /\ cs r = pg_real d) /\ question r = None.
Proof.
  unfold chunkResult. intro H.
  apply (Permutation_in _ (sort_by_cs_perm _)) in H.
  apply in_map_iff in H as [c [Hr Hc]]. apply filter_In in Hc as [_ Hc].
  subst r; simpl. split; [|reflexivity].
  exists (c_dist c). split; [now apply Qle_bool_iff|reflexivity].
Qed.

(** A row kept in the map is never displaced by a later row whose
    distance is not strictly lower. *)
Lemma merge_fold_keeps (k : Z) (e : SearchRow) (l : list SearchRow) (m : ChunkMap) :
  map_get k m = Some e ->
  (forall c, In c l -> chunk_id c = k -> (cs e <= cs c)%Q) ->
  map_get k (fold_left merge_step l m) = Some e.
Proof.
  revert m. induction l as [|c l IH]; intros m Hm Hl; simpl; [exact Hm|].
  apply IH; [|intros c' Hc'; apply Hl; now right].
  unfold merge_step.
  destruct (Z.eqb (chunk_id c) k) eqn:E.
  - apply Z.eqb_eq in E. rewrite E, Hm.
    destruct (Qltb (cs c) (cs e)) eqn:L; [|exact Hm].
    apply Qltb_true in L. exfalso.
    apply (Qlt_not_le _ _ L), Hl; [now left|exact E].
  - destruct (map_get (chunk_id c) m) as [e'|];
      [destruct (Qltb (cs c) (cs e'))|]; try exact Hm;
      rewrite map_get_set, Z.eqb_sym, E; exact Hm.
Qed.

(** C1: [searchSimilar] returns at most one entry per [chunk_id], and the
    distance of each returned entry is the minimum of the distances of all
    rows observed for that [chunk_id] in both collections (the entry is one
    of those rows). *)
Theorem searchSimilar_unique_min (qs : list QuestionRec) (cks : list ChunkRec)
    (threshold : Q) (chunksLimit : nat) :
  NoDup (map chunk_id (searchSimilar qs cks threshold chunksLimit)) /\
  forall r, In r (searchSimilar qs cks threshold chunksLimit) ->
    In r (allResults qs cks threshold) /\
    forall r', In r' (allResults qs cks threshold) -> chunk_id r' = chunk_id r ->
      (cs r <= cs r')%Q.
Proof.
  destruct (chunkMap_inv qs cks threshold) as [Hd [Hin Hget]]. split.
  - unfold searchSimilar. rewrite <- firstn_map. apply NoDup_firstn.
    eapply Permutation_NoDup.
    + apply Permutation_sym, Permutation_map, sort_by_cs_perm.
    + rewrite keys_are_ids; [exact Hd|]. intros k v H. now apply (Hin k v).
  - intros r Hr. apply searchSimilar_entry in Hr.
    destruct (Hin _ _ Hr) as [_ HrP]. split; [exact HrP|].
    intros r' Hr' Hid. destruct (Hget r' Hr') as [v [Hv Hle]].
    rewrite Hid in Hv. apply map_get_in in Hv.
    rewrite (nodup_fst_unique _ _ _ _ Hd Hr Hv). exact Hle.
Qed.

(** C2 counterexample: the JavaScript number [0.123456789] as threshold
    and a stored chunk at exactly that distance. The row passes the
    filter [(embedding <=> $1) <= $2] on the [float8] distance, but its
    reported [cs] is the [::real] value [0.12345679], which is larger than
    the threshold. *)
Lemma searchSimilar_threshold_counterexample :
  let threshold := to_float64 (123456789 # 1000000000) in
  let cks := [mkChunkRec 1 "page"%string "text"%string threshold] in
  (c_dist (mkChunkRec 1 "page"%string "text"%string threshold) <= threshold)%Q /\
  map cs (searchSimilar [] cks threshold 10) = [to_float64 (12345679 # 100000000)] /\
  (threshold < to_float64 (12345679 # 100000000))%Q.
Proof.
  cbv zeta. split; [apply Qle_refl|split].
  - vm_compute. reflexivity.
  - apply Qlt_alt. vm_compute. reflexivity.
Qed.

(** C10: when some question row of a [chunk_id] is at a distance no larger
    than every chunk row of that [chunk_id] (in particular at an exactly
    equal distance), the returned entry for that [chunk_id] is the
    question-sourced row and carries the matched question text. *)
Theorem searchSimilar_tie_prefers_question (qs : list QuestionRec)
    (cks : list ChunkRec) (threshold : Q) (chunksLimit : nat) (r : SearchRow) :
  In r (searchSimilar qs cks threshold chunksLimit) ->
  (exists q, In q (questionResult qs cks threshold) /\ chunk_id q = chunk_id r /\
     forall c, In c (chunkResult cks threshold) -> chunk_id c = chunk_id r ->
       (cs q <= cs c)%Q) ->
  In r (questionResult qs cks threshold) /\ exists txt, question r = Some txt.
Proof.
  intros Hr [q [Hq [Hqid Hqc]]].
  set (m1 := fold_left merge_step (questionResult qs cks threshold) []).
  assert (Hinv : merge_inv m1 (questionResult qs cks threshold)).
  { unfold m1. change (questionResult qs cks threshold)
      with ([] ++ questionResult qs cks threshold) at 2.
    apply merge_fold_inv, merge_inv_nil. }
  destruct Hinv as [_ [Hin1 Hget1]].
  destruct (Hget1 q Hq) as [e [He Hle]]. rewrite Hqid in He.
  destruct (Hin1 _ _ (map_get_in _ _ _ He)) as [_ HeQ].
  assert (Hfin : map_get (chunk_id r) (chunkMap qs cks threshold) = Some e).
  { unfold chunkMap, allResults. rewrite fold_left_app.
    apply merge_fold_keeps; [exact He|].
    intros c Hc Hcid. eapply Qle_trans; [exact Hle|]. now apply Hqc. }
  destruct (chunkMap_inv qs cks threshold) as [Hd _].
  apply searchSimilar_entry in Hr. apply map_get_in in Hfin.
  rewrite (nodup_fst_unique _ _ _ _ Hd Hr Hfin).
  split; [exact HeQ|]. now apply questionResult_rows in HeQ.
Qed.

(** A question row and the chunk row of chunk 1 lie at the same distance
    1/2; the returned entry is the question row. *)
Lemma searchSimilar_tie_prefers_question_witness :
  let qs := [mkQuestionRec 1 "page"%string "How is the index rebuilt?"%string (1 # 2)] in
  let cks := [mkChunkRec 1 "page"%string "The index is rebuilt nightly."%string (1 # 2)] in
  searchSimilar qs cks 1 10 =
    [mkRow 1 "page"%string (Some "How is the index rebuilt?"%string) "The index is rebuilt nightly."%string (1 # 2)] /\
  In (mkRow 1 "page"%string (Some "How is the index rebuilt?"%string) "The index is rebuilt nightly."%string (1 # 2))
     (questionResult qs cks 1) /\
  exists txt, question (mkRow 1 "page"%string (Some "How is the index rebuilt?"%string)
                          "The index is rebuilt nightly."%string (1 # 2)) = Some txt.
Proof.
  intros qs cks. split; [vm_compute; reflexivity|].
  apply (searchSimilar_tie_prefers_question qs cks 1 10).
  - vm_compute. left. reflexivity.
  - exists (mkRow 1 "page"%string (Some "How is the index rebuilt?"%string)
              "The index is rebuilt nightly."%string (1 # 2)).
    split; [vm_compute; left; reflexivity|split; [reflexivity|]].
    intros c Hc _. vm_compute in Hc. destruct Hc as [Hc|[]]. subst c.
    vm_compute. discriminate.
Defined.

End RetrievalFacts.

(** ** Embedding Batcher *)

Module EmbeddingsFacts.
Import Embeddings.
Local Open Scope nat_scope.

(** The estimated tokens of a request group. *)
Definition batch_tokens (tc : list N) (g : list nat) : N :=
  fold_right N.add 0%N (map (fun j => nth j tc 0%N) g).

(** The budget policy of a group: within [MAX_TOKENS_PER_BATCH], or a
    single text whose own estimate exceeds it. *)
Definition within_budget (tc : list N) (g : list nat) : Prop :=
  (batch_tokens tc g <= MAX_TOKENS_PER_BATCH)%N \/
  exists j, g = [j] /\ (MAX_TOKENS_PER_BATCH < nth j tc 0%N)%N.

Section Proofs.

Variable stringTokens : string -> N.
Variable embeddings_create : nat -> list string -> option (list vector).
Variable texts : list string.

Lemma batch_tokens_snoc (tc : list N) (g : list nat) (i : nat) :
  batch_tokens tc (g ++ [i]) = (batch_tokens tc g + nth i tc 0%N)%N.
Proof.
  unfold batch_tokens. rewrite map_app, fold_right_app. simpl.
  induction (map (fun j => nth j tc 0%N) g) as [|x l IH]; simpl; lia.
Qed.

Lemma build_batch_spec (fuel i : nat) (batch : list nat) (cur : N) (s : nat) :
  s <= i -> batch = seq s (i - s) ->
  cur = batch_tokens (tokenCounts stringTokens texts) batch ->
  (cur <= MAX_TOKENS_PER_BATCH)%N ->
  let '(b, _, i') := build_batch stringTokens texts fuel i batch cur in
  i <= i' /\ i' <= Nat.max i (List.length texts) /\ b = seq s (i' - s) /\
  within_budget (tokenCounts stringTokens texts) b.
Proof.
  revert i batch cur. induction fuel as [|f IH]; intros i batch cur Hs Hb Hc Hmax; simpl.
  - repeat split; try lia; [exact Hb|]. left. now rewrite <- Hc.
  - destruct (Nat.ltb i (List.length texts)) eqn:Hi;
      [apply Nat.ltb_lt in Hi|repeat split; try lia; [exact Hb|left; now rewrite <- Hc]].
    set (tks := nth i (tokenCounts stringTokens texts) 0%N).
    destruct ((MAX_TOKENS_PER_BATCH <? tks)%N && Nat.eqb (List.length batch) 0) eqn:Ho.
    + apply andb_true_iff in Ho as [Ho Hl]. apply N.ltb_lt in Ho.
      apply Nat.eqb_eq in Hl. rewrite Hb, length_seq in Hl.
      assert (i = s) by lia. subst i.
      rewrite Hb, Nat.sub_diag. replace (S s - s) with 1 by lia. simpl.
      repeat split; try lia.
      right. exists s. split; [reflexivity|exact Ho].
    + destruct (MAX_TOKENS_PER_BATCH <? tks + cur)%N eqn:Hover.
      * repeat split; try lia; [exact Hb|left; now rewrite <- Hc].
      * apply N.ltb_ge in Hover.
        specialize (IH (S i) (batch ++ [i]) (cur + tks)%N).
        destruct (build_batch stringTokens texts f (S i) (batch ++ [i]) (cur + tks)%N)
          as [[b c] i'].
        destruct IH as [H1 [H2 [H3 H4]]]; try lia.
        -- rewrite Hb. replace (S i - s) with (S (i - s)) by lia.
           rewrite seq_S. f_equal. f_equal. lia.
        -- rewrite batch_tokens_snoc, Hc. reflexivity.
        -- repeat split; try lia; assumption.
Qed.

Lemma build_batch_progress (fuel i : nat) :
  i < List.length texts -> 0 < fuel ->
  let '(_, _, i') := build_batch stringTokens texts fuel i [] 0%N in i < i'.
Proof.
  intros Hi Hf. destruct fuel as [|f]; [lia|]. simpl.
  apply Nat.ltb_lt in Hi as Hi'. rewrite Hi'. simpl.
  set (tks := nth i (tokenCounts stringTokens texts) 0%N).
  destruct (MAX_TOKENS_PER_BATCH <? tks)%N eqn:Ho; [simpl; lia|].
  apply N.ltb_ge in Ho. simpl.
  replace (tks + 0)%N with tks by lia.
  destruct (MAX_TOKENS_PER_BATCH <? tks)%N eqn:Ho'; [apply N.ltb_lt in Ho'; lia|].
  pose proof (build_batch_spec f (S i) [i] tks i) as H.
  destruct (build_batch stringTokens texts f (S i) [i] tks) as [[b c] i'].
  destruct H as [H1 _]; try lia.
  - now replace (S i - i) with 1 by lia.
  - unfold batch_tokens. simpl. lia.
Qed.

(** The response of a request, when it is accepted by the success test
    [response.data.length === currentBatch.length]. *)
Definition outcome (bn : nat) (g : list nat) : option (list vector) :=
  match embeddings_create bn (texts_of texts g) with
  | Some data => if Nat.eqb (List.length data) (List.length g) then Some data else None
  | None => None
  end.

Definition entry_ok (st : BatchState) (bn : nat) (g : list nat) : Prop :=
  forall k i, nth_error g k = Some i ->
    match outcome bn g with
    | Some data => nth_error (st_embeddings st) i = nth_error data k /\ ~ In i (st_failed st)
    | None => nth_error (st_embeddings st) i = Some [] /\ In i (st_failed st)
    end.

(** The invariant of the outer loop once the indices [0 .. p-1] are
    processed. *)
Definition binv (st : BatchState) (p : nat) : Prop :=
  List.concat (map snd (st_sent st)) = seq 0 p /\
  List.length (st_embeddings st) = p /\
  (forall j, In j (st_failed st) -> j < p) /\
  (forall bn g, In (bn, g) (st_sent st) ->
     g <> [] /\ within_budget (tokenCounts stringTokens texts) g /\ entry_ok st bn g).

Lemma outcome_length (bn : nat) (g : list nat) (data : list vector) :
  outcome bn g = Some data -> List.length data = List.length g.
Proof.
  unfold outcome. destruct (embeddings_create bn (texts_of texts g)); [|discriminate].
  destruct (Nat.eqb (List.length l) (List.length g)) eqn:E; [|discriminate].
  intro H; inversion H; subst. now apply Nat.eqb_eq.
Qed.

Lemma process_batch_eq (bn : nat) (g : list nat) (st : BatchState) :
  process_batch embeddings_create texts bn g st =
  match outcome bn g with
  | Some data => mkBatchState (st_embeddings st ++ data) (st_failed st)
                   (st_sent st ++ [(bn, g)])
  | None => mkBatchState (st_embeddings st ++ map (fun _ => []) g)
              (st_failed st ++ g) (st_sent st ++ [(bn, g)])
  end.
Proof.
  unfold process_batch, outcome.
  destruct (embeddings_create bn (texts_of texts g)); [|reflexivity].
  destruct (Nat.eqb (List.length l) (List.length g)); reflexivity.
Qed.

Lemma entry_ok_extend (st st' : BatchState) (bn : nat) (g : list nat) (p : nat) :
  entry_ok st bn g -> (forall j, In j g -> j < p) ->
  List.length (st_embeddings st) = p ->
  (exists x, st_embeddings st' = st_embeddings st ++ x) ->
  (forall j, j < p -> (In j (st_failed st') <-> In j (st_failed st))) ->
  entry_ok st' bn g.
Proof.
  intros H Hg Hlen [x Hx] Hf k i Hk.
  assert (Hi : i < p) by (apply Hg; eapply nth_error_In; exact Hk).
  specialize (H k i Hk). rewrite Hx, nth_error_app1 by lia.
  destruct (outcome bn g); rewrite (Hf i Hi); exact H.
Qed.

Lemma process_batch_inv (bn : nat) (st : BatchState) (p len : nat) :
  binv st p -> 0 < len ->
  within_budget (tokenCounts stringTokens texts) (seq p len) ->
  binv (process_batch embeddings_create texts bn (seq p len) st) (p + len).
Proof.
  intros [Hc [Hl [Hf Hs]]] Hlen Hb.
  assert (Hold : forall bn' g', In (bn', g') (st_sent st) -> forall j, In j g' -> j < p).
  { intros bn' g' Hin j Hj.
    assert (Hj' : In j (List.concat (map snd (st_sent st)))).
    { apply in_concat. exists g'. split; [|exact Hj].
      apply in_map_iff. now exists (bn', g'). }
    rewrite Hc in Hj'. apply in_seq in Hj'. lia. }
  rewrite process_batch_eq.
  destruct (outcome bn (seq p len)) as [data|] eqn:O;
    unfold binv; cbn [st_sent st_embeddings st_failed].
  - pose proof (outcome_length _ _ _ O) as Hdl. rewrite length_seq in Hdl.
    split; [|split; [|split]].
    + rewrite map_app, concat_app, Hc. simpl. rewrite app_nil_r, seq_app. reflexivity.
    + rewrite length_app. lia.
    + intros j Hj. specialize (Hf j Hj). lia.
    + intros bn' g' Hin. apply in_app_or in Hin as [Hin|[Hin|[]]].
      * destruct (Hs _ _ Hin) as [Hne [Hw He]]. repeat split; try assumption.
        eapply entry_ok_extend; [exact He|exact (Hold _ _ Hin)|exact Hl| |].
        -- now exists data.
        -- simpl. tauto.
      * inversion Hin; subst bn' g'. repeat split; [|exact Hb|].
        -- destruct len; [lia|discriminate].
        -- intros k i Hk. rewrite O. simpl.
           rewrite nth_error_seq in Hk.
           destruct (Nat.ltb k len) eqn:Hkl; [|discriminate].
           inversion Hk; subst i.
           rewrite nth_error_app2 by lia. replace (p + k - List.length (st_embeddings st)) with k by lia.
           split; [reflexivity|]. intro Hin'. specialize (Hf _ Hin'). lia.
  - split; [|split; [|split]].
    + rewrite map_app, concat_app, Hc. simpl. rewrite app_nil_r, seq_app. reflexivity.
    + rewrite length_app, length_map, length_seq. lia.
    + intros j Hj. apply in_app_or in Hj as [Hj|Hj].
      * specialize (Hf j Hj). lia.
      * apply in_seq in Hj. lia.
    + intros bn' g' Hin. apply in_app_or in Hin as [Hin|[Hin|[]]].
      * destruct (Hs _ _ Hin) as [Hne [Hw He]]. repeat split; try assumption.
        eapply entry_ok_extend; [exact He|exact (Hold _ _ Hin)|exact Hl| |].
        -- now exists (map (fun _ => []) (seq p len)).
        -- simpl. intros j Hj. split; [|intro; apply in_or_app; now left].
           intro H. apply in_app_or in H as [H|H]; [exact H|].
           apply in_seq in H. lia.
      * inversion Hin; subst bn' g'. repeat split; [|exact Hb|].
        -- destruct len; [lia|discriminate].
        -- intros k i Hk. rewrite O. simpl.
           split.
           ++ rewrite nth_error_app2 by (rewrite nth_error_seq in Hk;
                destruct (Nat.ltb k len); [inversion Hk|]; [lia|discriminate]).
              rewrite nth_error_seq in Hk.
              destruct (Nat.ltb k len) eqn:Hkl; [|discriminate].
              inversion Hk; subst i.
              replace (p + k - List.length (st_embeddings st)) with k by lia.
              rewrite nth_error_map, nth_error_seq, Hkl. reflexivity.
           ++ apply in_or_app. right. eapply nth_error_In. exact Hk.
Qed.

Lemma batch_loop_inv (fuel i bn : nat) (st : BatchState) :
  binv st i -> i <= List.length texts -> List.length texts - i <= fuel ->
  binv (batch_loop stringTokens embeddings_create texts fuel i bn st) (List.length texts).
Proof.
  revert i bn st. induction fuel as [|f IH]; intros i bn st Hinv Hi Hf; simpl.
  - now replace (List.length texts) with i by lia.
  - destruct (Nat.ltb i (List.length texts)) eqn:Hlt;
      [apply Nat.ltb_lt in Hlt|now replace (List.length texts) with i by (apply Nat.ltb_ge in Hlt; lia)].
    pose proof (build_batch_spec (List.length texts) i [] 0%N i) as Hspec.
    pose proof (build_batch_progress (List.length texts) i Hlt) as Hprog.
    destruct (build_batch stringTokens texts (List.length texts) i [] 0%N) as [[b c] i'].
    destruct Hspec as [H1 [H2 [H3 H4]]]; try lia.
    + now rewrite Nat.sub_diag.
    + reflexivity.
    + specialize (Hprog ltac:(lia)).
      rewrite H3, length_seq. destruct (Nat.ltb 0 (i' - i)) eqn:Hpos;
        [|apply Nat.ltb_ge in Hpos; lia].
      apply IH; try lia.
      replace i' with (i + (i' - i)) at 2 by lia.
      apply process_batch_inv; [exact Hinv|lia|]. now rewrite <- H3.
Qed.

Lemma run_inv : binv (run stringTokens embeddings_create texts) (List.length texts).
Proof.
  unfold run. apply batch_loop_inv; [|lia|lia].
  split; [reflexivity|split; [reflexivity|split]]; simpl; tauto.
Qed.

End Proofs.

(** C3: [getEmbeddingsForTexts] returns one entry per input text; every
    index [i < n] lies in a request group; for each index [i] of a request
    group, the group's [k]-th input is [texts[i]];
    if the group's request succeeds, entry [i] is the [k]-th vector of its
    response and [i] is not failed; if it throws or returns an unexpected
    number of vectors, entry [i] is the empty placeholder and [i] is in
    [failedIndices]. Each entry depends only on its own group's request,
    and the function is total: a failed request never escapes the call. *)
Theorem getEmbeddingsForTexts_aligned (stringTokens : string -> N)
    (embeddings_create : nat -> list string -> option (list vector))
    (texts : list string) :
  let res := getEmbeddingsForTexts stringTokens embeddings_create texts in
  let failed i := match failedIndices res with Some l => In i l | None => False end in
  List.length (embeddings res) = List.length texts /\
  (forall i, i < List.length texts ->
     exists bn g k, In (bn, g) (requestGroups stringTokens embeddings_create texts) /\
                    nth_error g k = Some i) /\
  forall bn g, In (bn, g) (requestGroups stringTokens embeddings_create texts) ->
  forall k i, nth_error g k = Some i ->
    nth_error (texts_of texts g) k = nth_error texts i /\
    match embeddings_create bn (texts_of texts g) with
    | Some data =>
        if Nat.eqb (List.length data) (List.length g)
        then nth_error (embeddings res) i = nth_error data k /\ ~ failed i
        else nth_error (embeddings res) i = Some [] /\ failed i
    | None => nth_error (embeddings res) i = Some [] /\ failed i
    end.
Proof.
  cbv zeta. unfold getEmbeddingsForTexts, requestGroups.
  destruct texts as [|t ts] eqn:Et;
    [split; [reflexivity|split; [simpl; intros; lia|simpl; tauto]]|].
  rewrite <- Et.
  pose proof (run_inv stringTokens embeddings_create texts) as [Hc [Hl [_ Hs]]].
  split; [exact Hl|]. split.
  { intros i Hi.
    assert (Hin : In i (List.concat (map snd (st_sent (run stringTokens embeddings_create texts)))))
      by (rewrite Hc; apply in_seq; lia).
    apply in_concat in Hin as [g [Hg Hig]]. apply in_map_iff in Hg as [[bn g'] [Hg' Hbg]].
    simpl in Hg'. subst g'. apply In_nth_error in Hig as [k Hk].
    exists bn, g, k. split; [exact Hbg|exact Hk]. }
  cbn [embeddings failedIndices].
  intros bn g Hin k i Hk.
  destruct (Hs bn g Hin) as [_ [_ He]].
  assert (Hi : i < List.length texts).
  { assert (Hj : In i (List.concat (map snd (st_sent (run stringTokens embeddings_create texts))))).
    { apply in_concat. exists g. split; [|eapply nth_error_In; exact Hk].
      apply in_map_iff. now exists (bn, g). }
    rewrite Hc in Hj. apply in_seq in Hj. lia. }
  split.
  - unfold texts_of. rewrite nth_error_map, Hk. simpl.
    symmetry. now apply nth_error_nth'.
  - specialize (He k i Hk). unfold outcome in He.
    set (st := run stringTokens embeddings_create texts) in *.
    assert (Hfail : forall j, In j (st_failed st) ->
              match (if Nat.ltb 0 (List.length (st_failed st)) then Some (st_failed st) else None)
              with Some l => In j l | None => False end).
    { intros j Hj. destruct (st_failed st) as [|x xs]; [destruct Hj|exact Hj]. }
    assert (Hfail' : forall j,
              match (if Nat.ltb 0 (List.length (st_failed st)) then Some (st_failed st) else None)
              with Some l => In j l | None => False end -> In j (st_failed st)).
    { intros j. destruct (Nat.ltb 0 (List.length (st_failed st))); tauto. }
    destruct (embeddings_create bn (texts_of texts g)) as [data|];
      [destruct (Nat.eqb (List.length data) (List.length g))|];
      destruct He as [He1 He2]; split; try assumption;
      first [now apply Hfail | intro Hc'; now apply He2, Hfail'].
Qed.

Lemma batch_tokens_member (tc : list N) (g : list nat) (j : nat) :
  In j g -> (nth j tc 0%N <= batch_tokens tc g)%N.
Proof.
  unfold batch_tokens. induction g as [|x g IH]; simpl; [tauto|].
  intros [H|H]; [subst; lia|]. specialize (IH H). lia.
Qed.

(** C8: the request groups of a call partition the indices [0 .. n-1] in
    order (each index lies in exactly one group); every group is non-empty
    and its estimated tokens stay within [MAX_TOKENS_PER_BATCH] = 8000,
    except a single text whose own estimate exceeds the budget, which is
    sent in a one-element group of its own. *)
Theorem embedding_groups_budget (stringTokens : string -> N)
    (embeddings_create : nat -> list string -> option (list vector))
    (texts : list string) :
  let tc := tokenCounts stringTokens texts in
  List.concat (map snd (requestGroups stringTokens embeddings_create texts))
    = seq 0 (List.length texts) /\
  forall bn g, In (bn, g) (requestGroups stringTokens embeddings_create texts) ->
    g <> [] /\
    ((batch_tokens tc g <= MAX_TOKENS_PER_BATCH)%N \/
     exists j, g = [j] /\ (MAX_TOKENS_PER_BATCH < nth j tc 0%N)%N) /\
    (forall j, In j g -> (MAX_TOKENS_PER_BATCH < nth j tc 0%N)%N -> g = [j]).
Proof.
  cbv zeta. unfold requestGroups.
  destruct texts as [|t ts] eqn:Et; [split; [reflexivity|simpl; tauto]|].
  rewrite <- Et.
  pose proof (run_inv stringTokens embeddings_create texts) as [Hc [_ [_ Hs]]].
  split; [exact Hc|]. intros bn g Hin.
  destruct (Hs bn g Hin) as [Hne [Hw _]]. split; [exact Hne|split; [exact Hw|]].
  intros j Hj Hbig. destruct Hw as [Hw|[j' [Hg _]]].
  - pose proof (batch_tokens_member (tokenCounts stringTokens texts) g j Hj). lia.
  - subst g. destruct Hj as [Hj|[]]. now subst.
Qed.

End EmbeddingsFacts.

(** ** Enricher *)

Module QuestionsFacts.
Import Text Questions.
Local Open Scope nat_scope.

(** A returned question survives validation: a string that is at least 10
    characters long once trimmed. *)
Definition usable (q : JsonValue) : bool :=
  match q with
  | JString s => Nat.leb 10 (String.length (str_trim s))
  | _ => false
  end.

Lemma validate_questions_unusable (maxQuestions : nat) (items : list JsonValue) :
  Forall (fun q => usable q = false) items -> validate_questions maxQuestions items = [].
Proof.
  intro H. unfold validate_questions.
  replace (filter _ _) with (@nil string); [now destruct maxQuestions|].
  induction items as [|v items IH]; [reflexivity|].
  inversion H as [|? ? Hv Hrest]; subst. simpl.
  destruct v; simpl; try (apply IH; exact Hrest).
  simpl in Hv. destruct (Nat.ltb 0 (String.length (str_trim s))); simpl; [|now apply IH].
  rewrite Hv. now apply IH.
Qed.

(** C4 (amended): for a fragment text that is not blank, when the request
    throws, or its answer has no structured result or no [questions]
    array, [generateQuestionsForChunk] returns [[chunkText]]; when the
    answer has a [questions] array, the validated questions are returned,
    and this list is empty when no entry survives validation. *)
Theorem generateQuestions_fallback (chunkText : string) (maxQuestions : nat) :
  String.length (str_trim chunkText) <> 0 ->
  generateQuestionsForChunk chunkText maxQuestions ChatThrows = [chunkText] /\
  (forall resultJson,
     (forall v items, resultJson = Some v -> truthy resultJson = true ->
        get_prop v "questions"%string <> Some (JArray items)) ->
     generateQuestionsForChunk chunkText maxQuestions (ChatAnswer resultJson) = [chunkText]) /\
  (forall v items, truthy (Some v) = true ->
     get_prop v "questions"%string = Some (JArray items) ->
     generateQuestionsForChunk chunkText maxQuestions (ChatAnswer (Some v))
       = validate_questions maxQuestions items /\
     (Forall (fun q => usable q = false) items ->
      generateQuestionsForChunk chunkText maxQuestions (ChatAnswer (Some v)) = [])).
Proof.
  intro Hne. unfold generateQuestionsForChunk.
  destruct (Nat.eqb (String.length (str_trim chunkText)) 0) eqn:E;
    [apply Nat.eqb_eq in E; contradiction|].
  split; [reflexivity|split].
  - intros rj Hno. destruct (truthy rj) eqn:T; [|reflexivity]. simpl.
    destruct rj as [v|]; [|reflexivity].
    destruct (get_prop v "questions"%string) as [j|] eqn:G; [destruct j|]; try reflexivity.
    exfalso. eapply Hno; [reflexivity|reflexivity|exact G].
  - intros v items T G. rewrite T, G. simpl. split; [reflexivity|].
    apply validate_questions_unusable.
Qed.

Lemma generateQuestions_fallback_witness :
  String.length (str_trim "Some fragment text"%string) <> 0 /\
  generateQuestionsForChunk "Some fragment text"%string 20 ChatThrows
    = ["Some fragment text"%string].
Proof.
  split; [vm_compute; discriminate|].
  apply (generateQuestions_fallback "Some fragment text"%string 20).
  vm_compute. discriminate.
Defined.

(** C4 counterexample: the answer parses and holds a [questions] array,
    but its only entry is shorter than 10 characters; the result is the
    empty list, not [[chunkText]]. *)
Lemma generateQuestions_empty_validation_counterexample :
  generateQuestionsForChunk "Some fragment text"%string 20
    (ChatAnswer (Some (JObject [("questions"%string, JArray [JString "Why?"%string])])))
  = [] /\
  generateQuestionsForChunk "Some fragment text"%string 20
    (ChatAnswer (Some (JObject [("questions"%string, JArray [JString "Why?"%string])])))
  <> ["Some fragment text"%string].
Proof.
  split; vm_compute; [reflexivity|discriminate].
Qed.

End QuestionsFacts.

(** ** Segmenter fallback *)

Module ChunkerFacts.
Import Text Chunker.
Local Open Scope nat_scope.

Lemma strip_ws_app (a b : list ascii) : strip_ws (a ++ b) = strip_ws a ++ strip_ws b.
Proof. apply filter_app. Qed.

Lemma strip_ws_drop (l : list ascii) : strip_ws (drop_ws l) = strip_ws l.
Proof.
  induction l as [|c l IH]; simpl; [reflexivity|].
  destruct (is_ws c) eqn:E; simpl; [exact IH|now rewrite E].
Qed.

Lemma strip_ws_rev (l : list ascii) : strip_ws (rev l) = rev (strip_ws l).
Proof.
  induction l as [|c l IH]; simpl; [reflexivity|].
  rewrite strip_ws_app, IH. simpl. destruct (is_ws c); simpl; [apply app_nil_r|reflexivity].
Qed.

Lemma strip_ws_trim (l : list ascii) : strip_ws (trim l) = strip_ws l.
Proof.
  unfold trim. rewrite strip_ws_rev, strip_ws_drop, strip_ws_rev, strip_ws_drop.
  apply rev_involutive.
Qed.

Lemma strip_ws_blank (l : list ascii) : nonblank l = false -> strip_ws l = [].
Proof.
  unfold nonblank. intro H. apply Nat.ltb_ge in H.
  rewrite <- strip_ws_trim. destruct (trim l); [reflexivity|simpl in H; lia].
Qed.

Lemma strip_ws_concat (ls : list (list ascii)) :
  strip_ws (List.concat ls) = List.concat (map strip_ws ls).
Proof.
  induction ls as [|l ls IH]; simpl; [reflexivity|]. now rewrite strip_ws_app, IH.
Qed.

Lemma observed_push (chunks : list (list ascii)) (cur : list ascii) :
  observed (chunks ++ [trim cur], []) = observed (chunks, cur).
Proof.
  unfold observed. simpl. rewrite map_app, concat_app. simpl.
  now rewrite strip_ws_trim, !app_nil_r.
Qed.

Lemma sentence_step_observed (m : nat) (st : list (list ascii) * list ascii)
    (s : list ascii) :
  observed (sentence_step m st s) = observed st ++ strip_ws s ++ [ascii_of_nat 46].
Proof.
  destruct st as [chunks sc]. unfold sentence_step.
  assert (Hend : forall ch sc', observed (ch, sc' ++ s ++ [ascii_of_nat 46; sp])
                   = observed (ch, sc') ++ strip_ws s ++ [ascii_of_nat 46]).
  { intros ch sc'. unfold observed. simpl. rewrite !strip_ws_app, <- !app_assoc.
    reflexivity. }
  destruct (Nat.ltb m (List.length sc + List.length s)); [|apply Hend].
  destruct (nonblank sc); rewrite Hend; [now rewrite observed_push|reflexivity].
Qed.

Lemma sentence_fold_observed (m : nat) (ss : list (list ascii))
    (st : list (list ascii) * list ascii) :
  observed (fold_left (sentence_step m) ss st)
  = observed st ++ List.concat (map (fun s => strip_ws s ++ [ascii_of_nat 46]) ss).
Proof.
  revert st. induction ss as [|s ss IH]; intro st; simpl; [now rewrite app_nil_r|].
  rewrite IH, sentence_step_observed. now rewrite <- !app_assoc.
Qed.

Lemma paragraph_step_observed (m : nat) (st : list (list ascii) * list ascii)
    (p : list ascii) :
  observed (paragraph_step m st p) = observed st ++ expected m p.
Proof.
  destruct st as [chunks cur]. unfold paragraph_step.
  destruct (Nat.ltb m (List.length cur + List.length p)) eqn:Hover.
  - (* flush the current chunk, or keep a blank one *)
    assert (Hflush : exists ch1 cur1,
              (if nonblank cur then (chunks ++ [trim cur], []) else (chunks, cur)) = (ch1, cur1)
              /\ strip_ws cur1 = [] /\ observed (chunks, cur) = List.concat (map strip_ws ch1)).
    { destruct (nonblank cur) eqn:B.
      - exists (chunks ++ [trim cur]), []. split; [reflexivity|split; [reflexivity|]].
        rewrite <- observed_push. unfold observed. simpl. now rewrite app_nil_r.
      - exists chunks, cur. split; [reflexivity|]. apply strip_ws_blank in B.
        split; [exact B|]. unfold observed. simpl. now rewrite B, app_nil_r. }
    destruct Hflush as [ch1 [cur1 [Heq [Hc1 Hobs]]]]. rewrite Heq, Hobs.
    unfold expected.
    destruct (Nat.ltb m (List.length p)) eqn:Hlong.
    + pose proof (sentence_fold_observed m (filter nonblank (split_sentences p)) (ch1, [])) as F.
      destruct (fold_left (sentence_step m) (filter nonblank (split_sentences p)) (ch1, []))
        as [ch2 sc] eqn:Hfold.
      unfold observed in F |- *. simpl in F |- *. rewrite app_nil_r in F.
      destruct (nonblank sc) eqn:B; simpl.
      * now rewrite strip_ws_trim.
      * rewrite Hc1, app_nil_r. apply strip_ws_blank in B. rewrite B, app_nil_r in F.
        exact F.
    + unfold observed. reflexivity.
  - assert (Hshort : Nat.ltb m (List.length p) = false).
    { apply Nat.ltb_ge in Hover. apply Nat.ltb_ge. lia. }
    unfold expected. rewrite Hshort.
    destruct (Nat.ltb 0 (List.length cur)) eqn:Hne; unfold observed; simpl.
    + rewrite !strip_ws_app. simpl. now rewrite <- app_assoc.
    + apply Nat.ltb_ge in Hne. destruct cur; [now rewrite app_nil_r|simpl in Hne; lia].
Qed.

(** Ignoring white space, the fallback fragments concatenate to the input's
    non-blank paragraphs in order, where a paragraph above
    the budget is replaced by its non-blank sentences (cut at runs of [.],
    [!], [?]) each closed by a full stop; so at least one fragment is
    produced whenever that reconstruction is not empty. *)
Theorem fallbackTextSplitting_reconstructs (text : list ascii) (maxChunkLength : nat) :
  strip_ws (List.concat (fallbackTextSplitting text maxChunkLength))
    = List.concat (map (expected maxChunkLength) (paragraphs text)) /\
  (List.concat (map (expected maxChunkLength) (paragraphs text)) <> [] ->
   fallbackTextSplitting text maxChunkLength <> []).
Proof.
  assert (Hfold : forall ps st,
            observed (fold_left (paragraph_step maxChunkLength) ps st)
            = observed st ++ List.concat (map (expected maxChunkLength) ps)).
  { induction ps as [|p ps IH]; intro st; simpl; [now rewrite app_nil_r|].
    rewrite IH, paragraph_step_observed. now rewrite <- app_assoc. }
  assert (Hmain : strip_ws (List.concat (fallbackTextSplitting text maxChunkLength))
                  = List.concat (map (expected maxChunkLength) (paragraphs text))).
  { unfold fallbackTextSplitting.
    specialize (Hfold (paragraphs text) ([], [])).
    destruct (fold_left (paragraph_step maxChunkLength) (paragraphs text) ([], []))
      as [chunks cur].
    unfold observed in Hfold. simpl in Hfold.
    rewrite strip_ws_concat. destruct (nonblank cur) eqn:B.
    - rewrite map_app, concat_app. simpl. now rewrite strip_ws_trim, app_nil_r.
    - apply strip_ws_blank in B. now rewrite B, app_nil_r in Hfold. }
  split; [exact Hmain|].
  intros Hne Hnil. apply Hne. rewrite <- Hmain, Hnil. reflexivity.
Qed.

(** C5 counterexample: the text ["aaaaa\n\nbbbbb"] has the two paragraphs
    ["aaaaa"] and ["bbbbb"], each within the budget 10, yet the fallback
    gives one fragment of 12 characters, since the length check does not
    count the separator ["\n\n"] the code appends; and the fragments of
    ["Hi! Bye?"] at budget 5 are ["Hi."; "Bye."], whose concatenation,
    white space ignored, is not the input's paragraph. *)
Lemma fallbackTextSplitting_counterexample :
  let text := (list_ascii_of_string "aaaaa" ++ [nl; nl] ++ list_ascii_of_string "bbbbb")%list in
  (paragraphs text = [list_ascii_of_string "aaaaa"; list_ascii_of_string "bbbbb"] /\
   Forall (fun p => List.length p <= 10) (paragraphs text) /\
   map (@List.length ascii) (fallbackTextSplitting text 10) = [12] /\
   fallbackTextSplitting (list_ascii_of_string "Hi! Bye?") 5
     = [list_ascii_of_string "Hi."; list_ascii_of_string "Bye."] /\
   strip_ws (List.concat (fallbackTextSplitting (list_ascii_of_string "Hi! Bye?") 5))
     <> strip_ws (List.concat (paragraphs (list_ascii_of_string "Hi! Bye?")))).
Proof.
  cbv zeta.
  split; [|split; [|split; [|split]]].
  - vm_compute. reflexivity.
  - vm_compute. repeat constructor.
  - vm_compute. reflexivity.
  - vm_compute. reflexivity.
  - vm_compute. discriminate.
Qed.

End ChunkerFacts.

(** ** Pipeline: question rows and progress reports *)

Module PipelineFacts.
Import Pipeline.
Local Open Scope nat_scope.

Section SavingProofs.

Variable insertChunk : nat -> option Z.
Variable insertQuestion : nat -> nat -> bool.
Variable questionEmbeddings : list (list Q).

Lemma saveChunkQuestions_rows (ci : nat) (cid : Z) (qs : list string) (qOffset k0 : nat)
    (r : QuestionRow) :
  In r (saveChunkQuestions insertQuestion questionEmbeddings ci cid qs qOffset k0) ->
  row_chunk_id r = cid /\
  exists k, nth_error qs k = Some (row_text r) /\
            row_embedding r = nth (qOffset + (k0 + k)) questionEmbeddings [].
Proof.
  revert k0. induction qs as [|q qs IH]; intros k0 Hin; simpl in Hin; [contradiction|].
  apply in_app_or in Hin as [Hin|Hin].
  - destruct (insertQuestion ci k0); [|contradiction].
    destruct Hin as [<-|[]]. simpl. split; [reflexivity|].
    exists 0. split; [reflexivity|]. now rewrite Nat.add_0_r.
  - destruct (IH (S k0) Hin) as [Hc [k [Hk He]]]. split; [exact Hc|].
    exists (S k). split; [exact Hk|]. rewrite He. f_equal. lia.
Qed.

Lemma saveQuestions_rows (chunkIds : list Z) (ci : nat) (chunkData : list (list string))
    (qOffset : nat) (r : QuestionRow) :
  In r (saveQuestions insertQuestion questionEmbeddings chunkIds ci chunkData qOffset) ->
  exists j k,
    j < List.length chunkData /\
    nth (ci + j) chunkIds (-1)%Z = row_chunk_id r /\
    row_chunk_id r <> (-1)%Z /\
    nth_error (nth j chunkData []) k = Some (row_text r) /\
    row_embedding r
      = nth (qOffset + (List.length (List.concat (firstn j chunkData)) + k))
            questionEmbeddings [].
Proof.
  revert ci qOffset. induction chunkData as [|qs rest IH]; intros ci qOffset Hin;
    simpl in Hin; [contradiction|].
  destruct (Z.eqb (nth ci chunkIds (-1)%Z) (-1)) eqn:Hskip.
  - destruct (IH (S ci) _ Hin) as [j [k [Hj [Hid [Hne [Hk He]]]]]].
    exists (S j), k. simpl. repeat split; try assumption; try lia.
    + now rewrite <- Nat.add_succ_comm.
    + rewrite He, length_app. f_equal. lia.
  - apply in_app_or in Hin as [Hin|Hin].
    + destruct (saveChunkQuestions_rows _ _ _ _ _ _ Hin) as [Hc [k [Hk He]]].
      exists 0, k. simpl. rewrite Nat.add_0_r. apply Z.eqb_neq in Hskip.
      split; [lia|]. split; [congruence|]. split; [congruence|].
      split; [exact Hk|exact He].
    + destruct (IH (S ci) _ Hin) as [j [k [Hj [Hid [Hne [Hk He]]]]]].
      exists (S j), k. simpl. repeat split; try assumption; try lia.
      * now rewrite <- Nat.add_succ_comm.
      * rewrite He, length_app. f_equal. lia.
Qed.

Lemma nth_error_concat_offset (chunkData : list (list string)) (j k : nat) (x : string) :
  nth_error (nth j chunkData []) k = Some x ->
  nth_error (List.concat chunkData) (questionOffset chunkData j + k) = Some x.
Proof.
  unfold questionOffset. revert j. induction chunkData as [|qs rest IH]; intros j Hx.
  - destruct j; destruct k; discriminate.
  - destruct j as [|j]; simpl in *.
    + rewrite nth_error_app1; [exact Hx|]. apply nth_error_Some. congruence.
    + rewrite length_app, <- Nat.add_assoc, nth_error_app2 by lia.
      rewrite Nat.add_sub_swap, Nat.sub_diag by lia. simpl. now apply IH.
Qed.

Lemma saveChunks_nth (chunkData : list (list string)) (j : nat) (cid : Z) :
  j < List.length chunkData ->
  nth j (saveChunks insertChunk chunkData) (-1)%Z = cid -> cid <> (-1)%Z ->
  insertChunk j = Some cid.
Proof.
  intros Hj Hnth Hne. unfold saveChunks in Hnth.
  set (f := fun ci => match insertChunk ci with Some c => c | None => (-1)%Z end) in Hnth.
  rewrite nth_indep with (d' := f 0) in Hnth by (rewrite length_map, length_seq; exact Hj).
  rewrite map_nth, seq_nth in Hnth by exact Hj. unfold f in Hnth. simpl in Hnth.
  destruct (insertChunk j); congruence.
Qed.

Lemma storedFragmentIds_in (chunkData : list (list string)) (j : nat) (cid : Z) :
  j < List.length chunkData -> insertChunk j = Some cid ->
  In cid (storedFragmentIds insertChunk chunkData).
Proof.
  intros Hj Hins. unfold storedFragmentIds. apply in_flat_map.
  exists j. split; [apply in_seq; lia|]. rewrite Hins. now left.
Qed.

End SavingProofs.

(** C6: every question row written by the saving loops of [processPage]
    carries the id returned by a successful fragment insert of the same run;
    its text is the [k]-th question of that fragment and sits at position
    [p] of the flat question list, and its embedding is entry [p] of the
    question embeddings (or [[]]), because [qOffset] also advances past
    skipped fragments. Hence the distinct fragment ids among the question
    rows are at most as many as the stored fragments. *)
Theorem savePage_questions_reference_fragments
    (insertChunk : nat -> option Z) (insertQuestion : nat -> nat -> bool)
    (questionEmbeddings : list (list Q)) (chunkData : list (list string)) :
  let rows := snd (savePage insertChunk insertQuestion questionEmbeddings chunkData) in
  (forall r, In r rows ->
     exists ci k,
       ci < List.length chunkData /\
       insertChunk ci = Some (row_chunk_id r) /\
       nth_error (nth ci chunkData []) k = Some (row_text r) /\
       nth_error (List.concat chunkData) (questionOffset chunkData ci + k)
         = Some (row_text r) /\
       row_embedding r
         = nth (questionOffset chunkData ci + k) questionEmbeddings []) /\
  (forall r, In r rows -> In (row_chunk_id r) (storedFragmentIds insertChunk chunkData)) /\
  (forall ids, NoDup ids -> incl ids (map row_chunk_id rows) ->
     List.length ids <= List.length (storedFragmentIds insertChunk chunkData)).
Proof.
  cbv zeta. unfold savePage. simpl snd.
  assert (Hrows : forall r,
    In r (saveQuestions insertQuestion questionEmbeddings
            (saveChunks insertChunk chunkData) 0 chunkData 0) ->
    exists ci k,
      ci < List.length chunkData /\
      insertChunk ci = Some (row_chunk_id r) /\
      nth_error (nth ci chunkData []) k = Some (row_text r) /\
      nth_error (List.concat chunkData) (questionOffset chunkData ci + k)
        = Some (row_text r) /\
      row_embedding r = nth (questionOffset chunkData ci + k) questionEmbeddings []).
  { intros r Hin.
    destruct (saveQuestions_rows _ _ _ _ _ _ _ Hin) as [j [k [Hj [Hid [Hne [Hk He]]]]]].
    exists j, k. repeat split.
    - exact Hj.
    - exact (saveChunks_nth insertChunk chunkData j _ Hj Hid Hne).
    - exact Hk.
    - now apply nth_error_concat_offset.
    - exact He. }
  assert (Hstored : forall r,
    In r (saveQuestions insertQuestion questionEmbeddings
            (saveChunks insertChunk chunkData) 0 chunkData 0) ->
    In (row_chunk_id r) (storedFragmentIds insertChunk chunkData)).
  { intros r Hin. destruct (Hrows r Hin) as [ci [k [Hci [Hins _]]]].
    exact (storedFragmentIds_in insertChunk chunkData ci _ Hci Hins). }
  split; [exact Hrows|split; [exact Hstored|]].
  intros ids Hnd Hincl. apply NoDup_incl_length; [exact Hnd|].
  intros x Hx. apply Hincl in Hx. apply in_map_iff in Hx as [r [<- Hr]].
  now apply Hstored.
Qed.

(** Progress values. *)

Lemma clamp_inside (v : Q) : (0 < v)%Q -> (v < 100)%Q -> Qmax 0 (Qmin 100 v) = v.
Proof.
  intros H0 H100. unfold Qmax, Qmin, GenericMinMax.gmax, GenericMinMax.gmin.
  rewrite (proj1 (Qgt_alt 100 v) H100), (proj1 (Qlt_alt 0 v) H0). reflexivity.
Qed.

Lemma questionProgress_bounds (n index : nat) :
  index < n -> (50 <= questionProgress n index)%Q /\ (questionProgress n index < 80)%Q.
Proof.
  intro H. unfold questionProgress.
  assert (Hn : (0 < inject_Z (Z.of_nat n))%Q).
  { change (inject_Z 0 < inject_Z (Z.of_nat n))%Q. rewrite <- Zlt_Qlt. lia. }
  assert (Hi0 : (0 <= inject_Z (Z.of_nat index))%Q).
  { change (inject_Z 0 <= inject_Z (Z.of_nat index))%Q. rewrite <- Zle_Qle. lia. }
  assert (Hin : (inject_Z (Z.of_nat index) < inject_Z (Z.of_nat n))%Q).
  { rewrite <- Zlt_Qlt. lia. }
  assert (Hlo : (0 <= inject_Z (Z.of_nat index) / inject_Z (Z.of_nat n))%Q).
  { apply Qle_shift_div_l; [exact Hn|]. lra. }
  assert (Hhi : (inject_Z (Z.of_nat index) / inject_Z (Z.of_nat n) < 1)%Q).
  { apply Qlt_shift_div_r; [exact Hn|]. lra. }
  split; lra.
Qed.

Lemma task_report (n index : nat) :
  index < n ->
  reportProgress QuestionsStage (questionProgress n index)
    = (QuestionsStage, questionProgress n index) /\
  (50 <= questionProgress n index)%Q /\ (questionProgress n index < 80)%Q.
Proof.
  intro H. destruct (questionProgress_bounds n index H) as [Hlo Hhi].
  split; [|split; assumption]. unfold reportProgress. f_equal.
  apply clamp_inside; lra.
Qed.

Lemma firstn_tail_cons {A} (pre l1 l2 : list A) (x : A) :
  firstn (List.length pre + S (List.length l1)) (pre ++ l1 ++ x :: l2) = pre ++ l1 ++ [x].
Proof.
  rewrite app_assoc, Nat.add_succ_r, <- Nat.add_1_r, <- length_app.
  rewrite firstn_app_2. rewrite <- app_assoc. reflexivity.
Qed.

Lemma report_fetching : reportProgress Fetching 10 = (Fetching, 10%Q).
Proof. reflexivity. Qed.
Lemma report_cleaning : reportProgress Cleaning 20 = (Cleaning, 20%Q).
Proof. reflexivity. Qed.
Lemma report_chunking : reportProgress Chunking 30 = (Chunking, 30%Q).
Proof. reflexivity. Qed.
Lemma report_questions : reportProgress QuestionsStage 50 = (QuestionsStage, 50%Q).
Proof. reflexivity. Qed.
Lemma report_embeddings : reportProgress EmbeddingsStage 80 = (EmbeddingsStage, 80%Q).
Proof. reflexivity. Qed.
Lemma report_saving : reportProgress Saving 95 = (Saving, 95%Q).
Proof. reflexivity. Qed.
Lemma report_completed : reportProgress Completed 100 = (Completed, 100%Q).
Proof. reflexivity. Qed.
Lemma report_error : reportProgress Error 0 = (Error, 0%Q).
Proof. reflexivity. Qed.

Create Rewrite HintDb reports.
#[local] Hint Rewrite report_fetching report_cleaning report_chunking report_questions
  report_embeddings report_saving report_completed report_error : reports.

Lemma task_reports (n : nat) (completed : list nat) :
  Forall (fun i => i < n) completed ->
  map (fun index => reportProgress QuestionsStage (questionProgress n index)) completed
  = map (fun index => (QuestionsStage, questionProgress n index)) completed.
Proof.
  intro Hc. apply map_ext_in. intros i Hi.
  apply Forall_forall with (x := i) in Hc; [|exact Hi].
  exact (proj1 (task_report n i Hc)).
Qed.

(** The reports after 50 in a successful run. *)
Definition success_tail (n : nat) (completed : list nat) : list (Stage * Q) :=
  map (fun index => (QuestionsStage, questionProgress n index)) completed
  ++ [(EmbeddingsStage, 80%Q); (Saving, 95%Q); (Completed, 100%Q)].

Lemma success_tail_ge (n : nat) (completed : list nat) (q : Q) :
  Forall (fun i => i < n) completed -> (q <= 50)%Q ->
  Forall (fun e => (q <= snd e)%Q) (success_tail n completed).
Proof.
  intros Hc Hq. unfold success_tail. apply Forall_app. split.
  - apply Forall_map. apply Forall_forall. intros i Hi.
    apply Forall_forall with (x := i) in Hc; [|exact Hi].
    destruct (questionProgress_bounds n i Hc) as [Hlo _]. simpl. lra.
  - repeat apply Forall_cons; simpl; try apply Forall_nil; lra.
Qed.

Lemma success_tail_mono (n : nat) (completed : list nat) :
  Forall (fun i => i < n) completed ->
  ForallOrdPairs stage_mono (success_tail n completed).
Proof.
  unfold success_tail. induction completed as [|i rest IH]; intro Hc.
  - simpl. repeat apply FOP_cons; try apply FOP_nil;
      repeat apply Forall_cons; try apply Forall_nil; right; simpl; lra.
  - inversion Hc as [|? ? Hi Hrest]; subst. simpl. apply FOP_cons; [|exact (IH Hrest)].
    destruct (questionProgress_bounds n i Hi) as [_ Hhi].
    apply Forall_app. split.
    + apply Forall_map. apply Forall_forall. intros j _. left. reflexivity.
    + repeat apply Forall_cons; try apply Forall_nil; right; simpl; lra.
Qed.

Lemma processPage_progress_success (n : nat) (completed : list nat) :
  Forall (fun i => i < n) completed ->
  processPage_progress None n completed
  = [(Fetching, 10%Q); (Cleaning, 20%Q); (Chunking, 30%Q)]
    ++ (if Nat.eqb n 0 then [] else (QuestionsStage, 50%Q) :: success_tail n completed).
Proof.
  intro Hc. unfold processPage_progress, success_tail. simpl.
  autorewrite with reports. rewrite (task_reports n completed Hc).
  destruct (Nat.eqb n 0); reflexivity.
Qed.

Lemma stage_mono_head (q : Q) (s : Stage) (l : list (Stage * Q)) :
  Forall (fun e => (q <= snd e)%Q) l -> Forall (stage_mono (s, q)) l.
Proof.
  intro H. eapply Forall_impl; [|exact H]. intros e He. now right.
Qed.

(** C7 (amended): the reports of a run that does not throw are 10, 20, 30
    and, when there are fragments, 50, then one report in [[50, 80)] per
    completed question task in completion order, then 80, 95, 100; any two
    reports of different stages are in non-decreasing order. A run that
    throws reports a prefix of that sequence followed by [(error, 0)]. *)
Theorem processPage_progress_stages (failure : option FailurePoint) (n : nat)
    (completed : list nat) (Hcompleted : Forall (fun i => i < n) completed) :
  let success := processPage_progress None n completed in
  success
    = [(Fetching, 10%Q); (Cleaning, 20%Q); (Chunking, 30%Q)]
      ++ (if Nat.eqb n 0 then []
          else (QuestionsStage, 50%Q)
               :: map (fun index => (QuestionsStage, questionProgress n index)) completed
               ++ [(EmbeddingsStage, 80%Q); (Saving, 95%Q); (Completed, 100%Q)]) /\
  Forall (fun index => (50 <= questionProgress n index)%Q /\
                       (questionProgress n index < 80)%Q) completed /\
  ForallOrdPairs stage_mono success /\
  (processPage_progress failure n completed = success \/
   exists k, 1 <= k /\ k <= List.length success /\
     processPage_progress failure n completed
       = firstn k success ++ [(Error, 0%Q)]).
Proof.
  cbv zeta. rewrite (processPage_progress_success n completed Hcompleted).
  split; [reflexivity|].
  split.
  { apply Forall_forall. intros i Hi. apply questionProgress_bounds.
    now apply Forall_forall with (x := i) in Hcompleted. }
  split.
  - pose proof (success_tail_ge n completed 50 Hcompleted (Qle_refl _)) as Hge.
    pose proof (success_tail_mono n completed Hcompleted) as Hm.
    destruct (Nat.eqb n 0); simpl.
    + repeat apply FOP_cons; try apply FOP_nil;
        repeat apply Forall_cons; try apply Forall_nil; right; simpl; lra.
    + assert (Hup : forall q s, (q <= 50)%Q ->
                Forall (stage_mono (s, q)) ((QuestionsStage, 50%Q) :: success_tail n completed)).
      { intros q s Hq. apply stage_mono_head. apply Forall_cons; [exact Hq|].
        apply (success_tail_ge n completed q Hcompleted Hq). }
      apply FOP_cons.
      { apply Forall_cons; [right; simpl; lra|]. apply Forall_cons; [right; simpl; lra|].
        apply Hup. lra. }
      apply FOP_cons.
      { apply Forall_cons; [right; simpl; lra|]. apply Hup. lra. }
      apply FOP_cons; [apply Hup; lra|].
      apply FOP_cons; [|exact Hm].
      apply stage_mono_head. exact Hge.
  - destruct failure as [p|];
      [|left; now rewrite (processPage_progress_success n completed Hcompleted)].
    unfold processPage_progress.
    autorewrite with reports. rewrite (task_reports n completed Hcompleted).
    destruct p; simpl.
    + right. exists 1. split; [lia|]. split; [destruct (Nat.eqb n 0); simpl; lia|].
      destruct (Nat.eqb n 0); reflexivity.
    + right. exists 2. split; [lia|]. split; [destruct (Nat.eqb n 0); simpl; lia|].
      destruct (Nat.eqb n 0); reflexivity.
    + right. exists 3. split; [lia|]. split; [destruct (Nat.eqb n 0); simpl; lia|].
      destruct (Nat.eqb n 0); reflexivity.
    + destruct (Nat.eqb n 0); [now left|].
      right. exists 3. split; [lia|]. split; [simpl; lia|]. reflexivity.
    + destruct (Nat.eqb n 0); [now left|].
      right. exists (5 + List.length completed). split; [lia|]. unfold success_tail. split.
      * simpl. rewrite length_app, length_map. simpl. lia.
      * set (M := map (fun index => (QuestionsStage, questionProgress n index)) completed).
        replace (5 + List.length completed) with (4 + S (List.length M))
          by (unfold M; rewrite length_map; lia).
        pose proof (firstn_tail_cons [(Fetching, 10%Q); (Cleaning, 20%Q); (Chunking, 30%Q);
                                      (QuestionsStage, 50%Q)] M
                      [(Saving, 95%Q); (Completed, 100%Q)] (EmbeddingsStage, 80%Q)) as F.
        cbn [List.length Nat.add app] in F |- *. rewrite F. simpl. now rewrite <- app_assoc.
Qed.

(** Witness of C7 at two fragments whose tasks complete in reverse order. *)
Lemma processPage_progress_stages_witness :
  Forall (fun i => i < 2) [1; 0] /\
  (let success := processPage_progress None 2 [1; 0] in
   success
     = [(Fetching, 10%Q); (Cleaning, 20%Q); (Chunking, 30%Q)]
       ++ (if Nat.eqb 2 0 then []
           else (QuestionsStage, 50%Q)
                :: map (fun index => (QuestionsStage, questionProgress 2 index)) [1; 0]
                ++ [(EmbeddingsStage, 80%Q); (Saving, 95%Q); (Completed, 100%Q)]) /\
   Forall (fun index => (50 <= questionProgress 2 index)%Q /\
                        (questionProgress 2 index < 80)%Q) [1; 0] /\
   ForallOrdPairs stage_mono success /\
   (processPage_progress (Some SaveFails) 2 [1; 0] = success \/
    exists k, 1 <= k /\ k <= List.length success /\
      processPage_progress (Some SaveFails) 2 [1; 0]
        = firstn k success ++ [(Error, 0%Q)])).
Proof.
  assert (H : Forall (fun i => i < 2) [1; 0]) by (repeat constructor; lia).
  split; [exact H|].
  exact (processPage_progress_stages (Some SaveFails) 2 [1; 0] H).
Defined.

(** C7 counterexample: with two fragments whose question tasks complete in
    the order 1, 0 the reports go 65 then 50; a run whose fetch throws
    reports 10 then 0. *)
Lemma processPage_progress_counterexample :
  map (fun e => (fst e, Qred (snd e))) (processPage_progress None 2 [1; 0])
    = [(Fetching, 10%Q); (Cleaning, 20%Q); (Chunking, 30%Q); (QuestionsStage, 50%Q);
       (QuestionsStage, 65%Q); (QuestionsStage, 50%Q);
       (EmbeddingsStage, 80%Q); (Saving, 95%Q); (Completed, 100%Q)] /\
  nondecreasing (map snd (processPage_progress None 2 [1; 0])) = false /\
  processPage_progress (Some FetchFails) 2 [] = [(Fetching, 10%Q); (Error, 0%Q)] /\
  nondecreasing (map snd (processPage_progress (Some FetchFails) 2 [])) = false.
Proof.
  split; [|split; [|split]]; vm_compute; reflexivity.
Qed.

End PipelineFacts.

(* ================================================================== *)
(** * Further properties of the code *)

(** ** [trim] *)

Module TextFacts.
Import Text.
Local Open Scope nat_scope.

Lemma drop_ws_idem (l : list ascii) : drop_ws (drop_ws l) = drop_ws l.
Proof.
  induction l as [|c l IH]; simpl; [reflexivity|].
  destruct (is_ws c) eqn:E; [exact IH|simpl; now rewrite E].
Qed.

Lemma drop_ws_head (l : list ascii) :
  drop_ws l = [] \/ exists c r, drop_ws l = c :: r /\ is_ws c = false.
Proof.
  induction l as [|c l IH]; simpl; [now left|].
  destruct (is_ws c) eqn:E; [exact IH|right; now exists c, l].
Qed.

Lemma drop_ws_split (l : list ascii) : exists w, l = w ++ drop_ws l.
Proof.
  induction l as [|c l [w IH]]; simpl; [now exists []|].
  destruct (is_ws c); [exists (c :: w); simpl; now f_equal|now exists []].
Qed.

Lemma drop_ws_nonws (l : list ascii) (c : ascii) (r : list ascii) :
  l = c :: r -> is_ws c = false -> drop_ws l = l.
Proof. intros -> E. simpl. now rewrite E. Qed.

Lemma trim_head (l : list ascii) : drop_ws (trim l) = trim l.
Proof.
  unfold trim. set (y := drop_ws l).
  destruct (drop_ws_split (rev y)) as [w Hw].
  assert (Hy : y = rev (drop_ws (rev y)) ++ rev w).
  { rewrite <- rev_app_distr, <- Hw. symmetry. apply rev_involutive. }
  destruct (rev (drop_ws (rev y))) as [|c r] eqn:A; [reflexivity|].
  destruct (drop_ws_head l) as [H|[c' [r' [H Hc']]]].
  - fold y in H. rewrite H in Hy. destruct c; discriminate.
  - fold y in H. rewrite H in Hy. simpl in Hy. inversion Hy; subst c'.
    eapply drop_ws_nonws; [reflexivity|exact Hc'].
Qed.

Lemma trim_idem (l : list ascii) : trim (trim l) = trim l.
Proof.
  unfold trim at 1. rewrite trim_head. unfold trim.
  rewrite rev_involutive, drop_ws_idem. reflexivity.
Qed.

Lemma string_length_of_list (l : list ascii) :
  String.length (string_of_list_ascii l) = List.length l.
Proof. induction l as [|c l IH]; simpl; congruence. Qed.

Lemma str_trim_idem (s : string) : Questions.str_trim (Questions.str_trim s) = Questions.str_trim s.
Proof.
  unfold Questions.str_trim. rewrite list_ascii_of_string_of_list_ascii, trim_idem.
  reflexivity.
Qed.

End TextFacts.

(** ** Fragments of the fallback splitter and of [splitIntoChunks] *)

Module SplitterFacts.
Import Text Questions Chunker Splitter TextFacts.
Local Open Scope nat_scope.

(** A fragment as the splitter pushes it: trimmed and not empty. *)
Definition clean_fragment (f : list ascii) : Prop := trim f = f /\ f <> [].

Lemma push_trim_clean (l : list ascii) : nonblank l = true -> clean_fragment (trim l).
Proof.
  unfold nonblank. intro H. apply Nat.ltb_lt in H. split; [apply trim_idem|].
  intro E. rewrite E in H. simpl in H. lia.
Qed.

Lemma sentence_step_clean (m : nat) (st : list (list ascii) * list ascii) (s : list ascii) :
  Forall clean_fragment (fst st) -> Forall clean_fragment (fst (sentence_step m st s)).
Proof.
  destruct st as [chunks sc]. simpl. intro H. unfold sentence_step.
  destruct (Nat.ltb m (List.length sc + List.length s)); simpl; [|exact H].
  destruct (nonblank sc) eqn:B; simpl; [|exact H].
  apply Forall_app. split; [exact H|]. constructor; [now apply push_trim_clean|constructor].
Qed.

Lemma sentence_fold_clean (m : nat) (ss : list (list ascii))
    (st : list (list ascii) * list ascii) :
  Forall clean_fragment (fst st) ->
  Forall clean_fragment (fst (fold_left (sentence_step m) ss st)).
Proof.
  revert st. induction ss as [|s ss IH]; intros st H; simpl; [exact H|].
  apply IH, sentence_step_clean, H.
Qed.

Lemma paragraph_step_clean (m : nat) (st : list (list ascii) * list ascii) (p : list ascii) :
  Forall clean_fragment (fst st) -> Forall clean_fragment (fst (paragraph_step m st p)).
Proof.
  destruct st as [chunks cur]. simpl. intro H. unfold paragraph_step.
  destruct (Nat.ltb m (List.length cur + List.length p)); [|destruct (Nat.ltb 0 (List.length cur)); exact H].
  assert (H1 : exists ch1 cur1,
            (if nonblank cur then (chunks ++ [trim cur], []) else (chunks, cur)) = (ch1, cur1)
            /\ Forall clean_fragment ch1).
  { destruct (nonblank cur) eqn:B.
    - eexists _, _. split; [reflexivity|]. apply Forall_app. split; [exact H|].
      constructor; [now apply push_trim_clean|constructor].
    - eexists _, _. split; [reflexivity|exact H]. }
  destruct H1 as [ch1 [cur1 [-> H1]]].
  destruct (Nat.ltb m (List.length p)); [|exact H1].
  pose proof (sentence_fold_clean m (filter nonblank (split_sentences p)) (ch1, []) H1) as F.
  destruct (fold_left (sentence_step m) (filter nonblank (split_sentences p)) (ch1, []))
    as [ch2 sc].
  destruct (nonblank sc); exact F.
Qed.

Lemma clean_fragment_string (f : list ascii) :
  clean_fragment f ->
  str_trim (string_of_list_ascii f) = string_of_list_ascii f /\
  String.length (str_trim (string_of_list_ascii f)) <> 0.
Proof.
  intros [Ht Hne]. unfold str_trim. rewrite list_ascii_of_string_of_list_ascii, Ht.
  split; [reflexivity|]. rewrite string_length_of_list. destruct f; [congruence|simpl; lia].
Qed.

Lemma fallback_fragments_clean (text : list ascii) (maxChunkLength : nat) :
  Forall clean_fragment (fallbackTextSplitting text maxChunkLength).
Proof.
  unfold fallbackTextSplitting.
  assert (G : forall ps st, Forall clean_fragment (fst st) ->
            Forall clean_fragment (fst (fold_left (paragraph_step maxChunkLength) ps st))).
  { induction ps as [|p ps IH]; intros st H; simpl; [exact H|].
    apply IH, paragraph_step_clean, H. }
  specialize (G (paragraphs text) ([], []) (Forall_nil _)).
  destruct (fold_left (paragraph_step maxChunkLength) (paragraphs text) ([], []))
    as [chunks cur].
  simpl in G. destruct (nonblank cur) eqn:B; [|exact G].
  apply Forall_app. split; [exact G|]. constructor; [now apply push_trim_clean|constructor].
Qed.

(** Every fragment of [fallbackTextSplitting] is trimmed and not empty,
    whatever the text and the budget. *)
Theorem fallbackTextSplitting_fragments_clean (text : list ascii) (maxChunkLength : nat) :
  Forall (fun f => trim f = f /\ f <> []) (fallbackTextSplitting text maxChunkLength).
Proof. apply fallback_fragments_clean. Qed.

Lemma fallbackChunks_clean (limit : nat) (html : string) :
  Forall (fun c => str_trim c = c /\ String.length (str_trim c) <> 0)
    (fallbackChunks limit html).
Proof.
  unfold fallbackChunks. apply Forall_map.
  eapply Forall_impl; [|apply fallback_fragments_clean].
  intros f Hf. now apply clean_fragment_string.
Qed.

Lemma validate_chunks_clean (items : list JsonValue) :
  Forall (fun c => str_trim c = c /\ String.length (str_trim c) <> 0)
    (validate_chunks items).
Proof.
  unfold validate_chunks. apply Forall_map. apply Forall_forall.
  intros s Hs. apply in_flat_map in Hs as [v [_ Hv]].
  destruct v; try destruct Hv.
  destruct (Nat.ltb 0 (String.length (str_trim s0))) eqn:L; [|destruct Hv].
  destruct Hv as [<-|[]]. rewrite str_trim_idem. apply Nat.ltb_lt in L. split; [reflexivity|lia].
Qed.

(** [splitIntoChunks]: a blank input gives no chunk; a non-blank input
    shorter than [CHUNK_CHARS_LIMIT] is returned unchanged as the only
    chunk; every chunk is non-blank; and from an input of at least
    [CHUNK_CHARS_LIMIT] characters every chunk is trimmed, whether it comes
    from the model's answer or from the fallback splitter. *)
Theorem splitIntoChunks_chunks_clean (CHUNK_CHARS_LIMIT : nat) (cleanedHtml : string)
    (llm : ChatOutcome) :
  let chunks := splitIntoChunks CHUNK_CHARS_LIMIT cleanedHtml llm in
  (String.length (str_trim cleanedHtml) = 0 -> chunks = []) /\
  (String.length (str_trim cleanedHtml) <> 0 ->
   String.length cleanedHtml < CHUNK_CHARS_LIMIT -> chunks = [cleanedHtml]) /\
  Forall (fun c => String.length (str_trim c) <> 0) chunks /\
  (CHUNK_CHARS_LIMIT <= String.length cleanedHtml -> Forall (fun c => str_trim c = c) chunks).
Proof.
  cbv zeta. unfold splitIntoChunks.
  destruct (Nat.eqb (String.length (str_trim cleanedHtml)) 0) eqn:B.
  { apply Nat.eqb_eq in B. repeat split; try (intros; congruence); constructor. }
  apply Nat.eqb_neq in B.
  assert (Hlong : Forall (fun c => str_trim c = c /\ String.length (str_trim c) <> 0)
     (match llm with
      | ChatThrows => fallbackChunks CHUNK_CHARS_LIMIT cleanedHtml
      | ChatAnswer parsedResponse =>
          if negb (truthy parsedResponse) then fallbackChunks CHUNK_CHARS_LIMIT cleanedHtml
          else
            match parsedResponse with
            | Some v =>
                match get_prop v "chunks"%string with
                | Some (JArray items) => validate_chunks items
                | _ => fallbackChunks CHUNK_CHARS_LIMIT cleanedHtml
                end
            | None => fallbackChunks CHUNK_CHARS_LIMIT cleanedHtml
            end
      end)).
  { destruct llm as [|pr]; [apply fallbackChunks_clean|].
    destruct (negb (truthy pr)); [apply fallbackChunks_clean|].
    destruct pr as [v|]; [|apply fallbackChunks_clean].
    destruct (get_prop v "chunks"%string) as [[]|]; try apply fallbackChunks_clean.
    apply validate_chunks_clean. }
  destruct (Nat.ltb (String.length cleanedHtml) CHUNK_CHARS_LIMIT) eqn:L.
  - apply Nat.ltb_lt in L. split; [intro; contradiction|].
    split; [reflexivity|]. split; [constructor; [exact B|constructor]|]. intro; lia.
  - apply Nat.ltb_ge in L. split; [intro; contradiction|]. split; [intros; lia|].
    split; [|intros _]; (eapply Forall_impl; [|exact Hlong]); intros c [Hc1 Hc2]; assumption.
Qed.

End SplitterFacts.

(** ** [failedIndices] and the numbering of embedding requests *)

Module EmbeddingsMore.
Import Embeddings EmbeddingsFacts.
Local Open Scope nat_scope.

Lemma SS_app_inv (l1 l2 : list nat) :
  StronglySorted lt (l1 ++ l2) ->
  StronglySorted lt l1 /\ StronglySorted lt l2 /\ (forall x y, In x l1 -> In y l2 -> x < y).
Proof.
  induction l1 as [|a l1 IH]; simpl; intro H; [repeat split; [constructor|exact H|tauto]|].
  apply StronglySorted_inv in H as [H Ha]. destruct (IH H) as [H1 [H2 H3]].
  rewrite Forall_forall in Ha.
  repeat split; [constructor; [exact H1|]|exact H2|].
  - apply Forall_forall. intros x Hx. apply Ha, in_or_app. now left.
  - intros x y [<-|Hx] Hy; [apply Ha, in_or_app; now right|now apply H3].
Qed.

Lemma SS_app_intro (l1 l2 : list nat) :
  StronglySorted lt l1 -> StronglySorted lt l2 -> (forall x y, In x l1 -> In y l2 -> x < y) ->
  StronglySorted lt (l1 ++ l2).
Proof.
  induction l1 as [|a l1 IH]; simpl; intros H1 H2 H3; [exact H2|].
  apply StronglySorted_inv in H1 as [H1 Ha]. constructor.
  - apply IH; [exact H1|exact H2|]. intros x y Hx Hy. apply H3; tauto.
  - apply Forall_forall. intros x Hx. apply in_app_or in Hx as [Hx|Hx].
    + rewrite Forall_forall in Ha. now apply Ha.
    + apply H3; tauto.
Qed.

Lemma SS_seq (s n : nat) : StronglySorted lt (seq s n).
Proof.
  revert s. induction n as [|n IH]; intro s; simpl; constructor; [apply IH|].
  apply Forall_forall. intros x Hx. apply in_seq in Hx. lia.
Qed.

Lemma concat_select_sorted {A : Type} (sel : A -> list nat) (grp : A -> list nat)
    (sent : list A) :
  (forall p, sel p = [] \/ sel p = grp p) ->
  StronglySorted lt (List.concat (map grp sent)) ->
  StronglySorted lt (List.concat (map sel sent)) /\
  (forall x, In x (List.concat (map sel sent)) -> In x (List.concat (map grp sent))).
Proof.
  intro Hsel. induction sent as [|p sent IH]; simpl; intro H; [split; [constructor|tauto]|].
  apply SS_app_inv in H as [H1 [H2 H3]]. destruct (IH H2) as [IH1 IH2].
  split.
  - destruct (Hsel p) as [E|E]; rewrite E; [exact IH1|].
    apply SS_app_intro; [exact H1|exact IH1|]. intros x y Hx Hy. apply H3; [exact Hx|now apply IH2].
  - intros x Hx. apply in_app_or in Hx as [Hx|Hx]; apply in_or_app; [left|right; now apply IH2].
    destruct (Hsel p) as [E|E]; rewrite E in Hx; [destruct Hx|exact Hx].
Qed.

Section Failed.

Variable stringTokens : string -> N.
Variable embeddings_create : nat -> list string -> option (list vector).
Variable texts : list string.

(** The indices of the groups whose request was not accepted, in the
    order of the requests. *)
Definition failed_of (sent : list (nat * list nat)) : list nat :=
  List.concat (map (fun p => match outcome embeddings_create texts (fst p) (snd p) with
                             | Some _ => []
                             | None => snd p
                             end) sent).

Definition finv (st : BatchState) (bn : nat) : Prop :=
  st_failed st = failed_of (st_sent st) /\ map fst (st_sent st) = seq 1 bn.

Lemma process_batch_finv (bn : nat) (g : list nat) (st : BatchState) :
  finv st bn -> finv (process_batch embeddings_create texts (S bn) g st) (S bn).
Proof.
  intros [Hf Hn]. rewrite process_batch_eq. unfold finv, failed_of.
  rewrite seq_S. replace (1 + bn) with (S bn) by lia.
  destruct (outcome embeddings_create texts (S bn) g) eqn:O; cbn [st_failed st_sent];
    rewrite !map_app; simpl; rewrite ?concat_app; simpl; rewrite O, Hn;
    (split; [|reflexivity]); rewrite Hf; unfold failed_of; now rewrite ?app_nil_r.
Qed.

Lemma batch_loop_finv (fuel i bn : nat) (st : BatchState) :
  finv st bn ->
  exists bn', finv (batch_loop stringTokens embeddings_create texts fuel i bn st) bn'.
Proof.
  revert i bn st. induction fuel as [|f IH]; intros i bn st H; simpl; [now exists bn|].
  destruct (Nat.ltb i (List.length texts)); [|now exists bn].
  destruct (build_batch stringTokens texts (List.length texts) i [] 0%N) as [[b c] i'].
  destruct (Nat.ltb 0 (List.length b)); apply IH; [now apply process_batch_finv|exact H].
Qed.

End Failed.

(** [getEmbeddingsForTexts] numbers its requests 1, 2, 3, ... in the
    order they are sent. [failedIndices] is [undefined] exactly when every
    request was accepted (it answered with one vector per text); otherwise
    it lists the indices of the rejected groups, in request order, which
    is strictly increasing, so no index is reported twice. *)
Theorem getEmbeddingsForTexts_failedIndices (stringTokens : string -> N)
    (embeddings_create : nat -> list string -> option (list vector))
    (texts : list string) :
  let groups := requestGroups stringTokens embeddings_create texts in
  map fst groups = seq 1 (List.length groups) /\
  match failedIndices (getEmbeddingsForTexts stringTokens embeddings_create texts) with
  | None => forall bn g, In (bn, g) groups -> outcome embeddings_create texts bn g <> None
  | Some l => l = failed_of embeddings_create texts groups /\ l <> [] /\
              StronglySorted lt l /\ (forall i, In i l -> i < List.length texts)
  end.
Proof.
  cbv zeta. unfold requestGroups, getEmbeddingsForTexts.
  destruct texts as [|t ts] eqn:Et; [split; [reflexivity|simpl; tauto]|].
  rewrite <- Et.
  destruct (batch_loop_finv stringTokens embeddings_create texts (List.length texts) 0 0
              (mkBatchState [] [] [])) as [bn' [Hf Hn]]; [split; reflexivity|].
  fold (run stringTokens embeddings_create texts) in Hf, Hn.
  pose proof (run_inv stringTokens embeddings_create texts) as [Hc [_ [Hlt Hs]]].
  set (st := run stringTokens embeddings_create texts) in *.
  assert (Hlen : bn' = List.length (st_sent st)).
  { rewrite <- (length_map fst (st_sent st)), Hn. symmetry. apply length_seq. }
  split; [now rewrite Hn, Hlen|]. cbn [failedIndices].
  destruct (Nat.ltb 0 (List.length (st_failed st))) eqn:L.
  - apply Nat.ltb_lt in L. split; [exact Hf|]. split; [destruct (st_failed st); simpl in L; [lia|discriminate]|].
    split; [|exact Hlt].
    rewrite Hf. unfold failed_of.
    apply (concat_select_sorted _ snd).
    + intro p. destruct (outcome embeddings_create texts (fst p) (snd p)); tauto.
    + rewrite Hc. apply SS_seq.
  - apply Nat.ltb_ge in L. intros bn g Hin O.
    destruct (Hs bn g Hin) as [Hne _].
    assert (Hin' : forall x, In x g -> In x (st_failed st)).
    { intros x Hx. rewrite Hf. unfold failed_of. apply in_concat.
      exists g. split; [|exact Hx]. apply in_map_iff. exists (bn, g). simpl. now rewrite O. }
    destruct g as [|x g]; [congruence|].
    specialize (Hin' x (or_introl eq_refl)). destruct (st_failed st); [destruct Hin'|simpl in L; lia].
Qed.

End EmbeddingsMore.

(** ** Which chunks [searchSimilar] returns *)

Module RetrievalMore.
Import Retrieval RetrievalFacts.
Local Open Scope nat_scope.

Lemma SS_app_cross {A : Type} (R : A -> A -> Prop) (l1 l2 : list A) (x y : A) :
  StronglySorted R (l1 ++ l2) -> In x l1 -> In y l2 -> R x y.
Proof.
  induction l1 as [|a l1 IH]; simpl; [tauto|].
  intros H Hx Hy. apply StronglySorted_inv in H as [H Ha].
  destruct Hx as [<-|Hx]; [|now apply IH].
  rewrite Forall_forall in Ha. apply Ha, in_or_app. now right.
Qed.

Lemma cs_le_trans : Transitive cs_le.
Proof. intros a b c. unfold cs_le. apply Qle_trans. Qed.

(** The keys of the merge map are exactly the [chunk_id]s of the rows of
    both queries. *)
Lemma chunkMap_keys (qs : list QuestionRec) (cks : list ChunkRec) (t : Q) (k : Z) :
  In k (map fst (chunkMap qs cks t)) <-> In k (map chunk_id (allResults qs cks t)).
Proof.
  destruct (chunkMap_inv qs cks t) as [_ [Hin Hget]]. split; intro H.
  - apply in_map_iff in H as [[k' v] [Hk Hkv]]. simpl in Hk; subst k'.
    destruct (Hin _ _ Hkv) as [Hid Hv]. apply in_map_iff. now exists v.
  - apply in_map_iff in H as [r [<- Hr]]. destruct (Hget r Hr) as [v [Hv _]].
    apply map_get_in in Hv. apply in_map_iff. now exists (chunk_id r, v).
Qed.

(** [searchSimilar] returns one entry for each distinct [chunk_id] among
    the rows of both queries, up to [chunksLimit] entries. A matching
    chunk is left out only when the limit is reached, and then every
    returned entry is at a distance no larger than any row of the left-out
    chunk: the result is the [chunksLimit] closest chunks. *)
Theorem searchSimilar_top_chunks (qs : list QuestionRec) (cks : list ChunkRec)
    (threshold : Q) (chunksLimit : nat) :
  let res := searchSimilar qs cks threshold chunksLimit in
  List.length res
    = Nat.min chunksLimit
        (List.length (nodup Z.eq_dec (map chunk_id (allResults qs cks threshold)))) /\
  forall r, In r (allResults qs cks threshold) -> ~ In (chunk_id r) (map chunk_id res) ->
    List.length res = chunksLimit /\ forall x, In x res -> (cs x <= cs r)%Q.
Proof.
  cbv zeta. destruct (chunkMap_inv qs cks threshold) as [Hd [Hin Hget]].
  set (m := chunkMap qs cks threshold) in *.
  set (L := sort_by_cs (map snd m)).
  assert (HL : searchSimilar qs cks threshold chunksLimit = firstn chunksLimit L) by reflexivity.
  rewrite HL. split.
  - rewrite length_firstn. f_equal.
    unfold L. rewrite (Permutation_length (sort_by_cs_perm _)), length_map.
    rewrite <- (length_map fst m).
    apply Nat.le_antisymm; apply NoDup_incl_length.
    + exact Hd.
    + intros k Hk. apply nodup_In. now apply chunkMap_keys.
    + apply NoDup_nodup.
    + intros k Hk. apply nodup_In in Hk. now apply chunkMap_keys.
  - intros r Hr Hnot.
    destruct (Hget r Hr) as [v [Hv Hle]]. apply map_get_in in Hv.
    assert (HvL : In v L).
    { unfold L. apply (Permutation_in _ (Permutation_sym (sort_by_cs_perm _))).
      apply in_map_iff. now exists (chunk_id r, v). }
    assert (Hvid : chunk_id v = chunk_id r) by exact (proj1 (Hin _ _ Hv)).
    assert (Hvout : ~ In v (firstn chunksLimit L)).
    { intro H. apply Hnot. rewrite <- Hvid. now apply in_map. }
    assert (Hvskip : In v (skipn chunksLimit L)).
    { rewrite <- (firstn_skipn chunksLimit L) in HvL.
      apply in_app_or in HvL as [H|H]; [contradiction|exact H]. }
    split.
    + rewrite length_firstn. apply Nat.min_l.
      destruct (Nat.le_gt_cases (List.length L) chunksLimit) as [Hle'|Hgt]; [|lia].
      rewrite skipn_all2 in Hvskip by exact Hle'. destruct Hvskip.
    + intros x Hx. eapply Qle_trans; [|exact Hle].
      apply (SS_app_cross cs_le (firstn chunksLimit L) (skipn chunksLimit L)); try assumption.
      rewrite firstn_skipn. apply Sorted_StronglySorted; [exact cs_le_trans|apply sort_by_cs_sorted].
Qed.

End RetrievalMore.

(** ** The saving loops when every insert succeeds *)

Module SavingMore.
Import Pipeline.
Local Open Scope nat_scope.

Section AllSaved.

Variable insertChunk : nat -> option Z.
Variable insertQuestion : nat -> nat -> bool.
Variable questionEmbeddings : list (list Q).

Hypothesis questions_saved : forall ci k, insertQuestion ci k = true.

Lemma saveChunkQuestions_all (ci : nat) (cid : Z) (qs : list string) (qOffset k : nat) :
  let rows := saveChunkQuestions insertQuestion questionEmbeddings ci cid qs qOffset k in
  map row_text rows = qs /\
  map row_embedding rows
    = map (fun p => nth p questionEmbeddings []) (seq (qOffset + k) (List.length qs)).
Proof.
  cbv zeta. revert k. induction qs as [|q qs IH]; intro k; simpl; [split; reflexivity|].
  rewrite questions_saved. simpl. destruct (IH (S k)) as [H1 H2].
  rewrite H1, H2. replace (qOffset + S k) with (S (qOffset + k)) by lia.
  split; reflexivity.
Qed.

Lemma saveQuestions_all (chunkIds : list Z) (ci : nat) (chunkData : list (list string))
    (qOffset : nat) :
  (forall j, j < List.length chunkData -> nth (ci + j) chunkIds (-1)%Z <> (-1)%Z) ->
  let rows := saveQuestions insertQuestion questionEmbeddings chunkIds ci chunkData qOffset in
  map row_text rows = List.concat chunkData /\
  map row_embedding rows
    = map (fun p => nth p questionEmbeddings []) (seq qOffset (List.length (List.concat chunkData))).
Proof.
  cbv zeta. revert ci qOffset. induction chunkData as [|qs rest IH]; intros ci qOffset Hids;
    simpl; [split; reflexivity|].
  assert (H0 := Hids 0 ltac:(simpl; lia)). rewrite Nat.add_0_r in H0.
  apply Z.eqb_neq in H0. rewrite H0.
  destruct (saveChunkQuestions_all ci (nth ci chunkIds (-1)%Z) qs qOffset 0) as [A1 A2].
  destruct (IH (S ci) (qOffset + List.length qs)) as [B1 B2].
  { intros j Hj. replace (S ci + j) with (ci + S j) by lia. apply (Hids (S j)). simpl. lia. }
  rewrite !map_app, A1, A2, B1, B2, Nat.add_0_r, length_app, seq_app, map_app.
  split; reflexivity.
Qed.

End AllSaved.

(** When every fragment insert returns an id other than [-1] and every
    question insert succeeds, [processPage] stores every fragment, in
    order, and writes one question row per generated question: the rows
    hold the questions in their flat order and the [p]-th row carries the
    [p]-th question embedding (or [[]]). *)
Theorem savePage_all_rows (insertChunk : nat -> option Z)
    (insertQuestion : nat -> nat -> bool) (questionEmbeddings : list (list Q))
    (chunkData : list (list string)) :
  (forall ci, ci < List.length chunkData ->
     exists chunkId, insertChunk ci = Some chunkId /\ chunkId <> (-1)%Z) ->
  (forall ci k, insertQuestion ci k = true) ->
  let '(chunkIds, rows) := savePage insertChunk insertQuestion questionEmbeddings chunkData in
  chunkIds = storedFragmentIds insertChunk chunkData /\
  map row_text rows = List.concat chunkData /\
  map row_embedding rows
    = map (fun p => nth p questionEmbeddings []) (seq 0 (List.length (List.concat chunkData))).
Proof.
  intros Hchunks Hq. unfold savePage.
  assert (Hids : saveChunks insertChunk chunkData = storedFragmentIds insertChunk chunkData).
  { unfold saveChunks, storedFragmentIds. rewrite flat_map_concat_map.
    assert (G : forall s, (forall ci, In ci s -> exists c, insertChunk ci = Some c /\ c <> (-1)%Z) ->
              map (fun ci => match insertChunk ci with Some c => c | None => (-1)%Z end) s
              = List.concat (map (fun ci => match insertChunk ci with
                                            | Some c => [c] | None => [] end) s)).
    { induction s as [|x s IH]; intro H; simpl; [reflexivity|].
      destruct (H x (or_introl eq_refl)) as [c [Hc _]]. rewrite Hc. simpl. f_equal.
      apply IH. intros ci Hci. apply H. now right. }
    apply G. intros ci Hci. apply in_seq in Hci. apply Hchunks. lia. }
  split; [exact Hids|].
  apply saveQuestions_all; [exact Hq|].
  intros j Hj. rewrite Nat.add_0_l. destruct (Hchunks j Hj) as [c [Hc Hne]].
  unfold saveChunks.
  set (f := fun ci => match insertChunk ci with Some c => c | None => (-1)%Z end).
  rewrite nth_indep with (d' := f 0) by (rewrite length_map, length_seq; exact Hj).
  rewrite map_nth, seq_nth by exact Hj. unfold f. simpl. now rewrite Hc.
Qed.

Lemma savePage_all_rows_witness :
  let insertChunk := fun ci => Some (Z.of_nat ci + 1)%Z in
  let insertQuestion := fun (_ _ : nat) => true in
  let chunkData := [["Q1"%string]; ["Q2"%string; "Q3"%string]] in
  let emb := [[1%Q]; [2%Q]; [3%Q]] in
  (forall ci, ci < List.length chunkData ->
     exists chunkId, insertChunk ci = Some chunkId /\ chunkId <> (-1)%Z) /\
  (forall ci k, insertQuestion ci k = true) /\
  savePage insertChunk insertQuestion emb chunkData
    = ([1%Z; 2%Z],
       [mkQuestionRow 1 "Q1" [1%Q]; mkQuestionRow 2 "Q2" [2%Q]; mkQuestionRow 2 "Q3" [3%Q]]) /\
  (let '(chunkIds, rows) := savePage insertChunk insertQuestion emb chunkData in
   chunkIds = storedFragmentIds insertChunk chunkData /\
   map row_text rows = List.concat chunkData /\
   map row_embedding rows = map (fun p => nth p emb []) (seq 0 (List.length (List.concat chunkData)))).
Proof.
  cbv zeta.
  assert (H1 : forall ci, ci < 2 -> exists chunkId, Some (Z.of_nat ci + 1)%Z = Some chunkId /\
                                                   chunkId <> (-1)%Z).
  { intros ci _. exists (Z.of_nat ci + 1)%Z. split; [reflexivity|lia]. }
  split; [exact H1|]. split; [reflexivity|]. split; [reflexivity|].
  apply (savePage_all_rows (fun ci => Some (Z.of_nat ci + 1)%Z) (fun _ _ => true)).
  - exact H1.
  - reflexivity.
Defined.

End SavingMore.

(** ** [processPages]: batches and their order *)

Module PageBatchesFacts.
Import PageBatches.
Local Open Scope nat_scope.

Section Facts.

Variable Page : Type.
Variable PipelineResult : Type.

Lemma batches_loop_ends (bs : nat) (pages : list Page) (fuel i : nat) :
  0 < bs -> List.length pages - i < fuel ->
  exists bl, batches_loop Page fuel bs pages i = Some bl /\
    List.concat bl = skipn i pages /\
    Forall (fun b => 0 < List.length b <= bs) bl /\
    (forall bi b, nth_error bl bi = Some b -> b = firstn bs (skipn (i + bi * bs) pages)).
Proof.
  intro Hbs. revert i. induction fuel as [|f IH]; intros i Hf; [lia|]. simpl.
  destruct (Nat.ltb i (List.length pages)) eqn:Hi.
  - apply Nat.ltb_lt in Hi.
    destruct (IH (i + bs)) as [bl [E [Hc [Hl Hn]]]]; [lia|].
    rewrite E. eexists. split; [reflexivity|]. split; [|split].
    + simpl. rewrite Hc, (Nat.add_comm i bs), <- skipn_skipn.
      apply firstn_skipn.
    + constructor; [|exact Hl]. rewrite length_firstn, length_skipn. lia.
    + intros [|bi] b Hb; simpl in Hb.
      * inversion Hb. now rewrite Nat.add_0_r.
      * rewrite (Hn bi b Hb). f_equal. f_equal. simpl. lia.
  - apply Nat.ltb_ge in Hi. eexists. split; [reflexivity|].
    rewrite skipn_all2 by exact Hi. split; [reflexivity|]. split; [constructor|].
    intros [|bi] b Hb; discriminate.
Qed.

Lemma fold_batches (processPage : Page -> PipelineResult) (bl : list (list Page))
    (acc : list PipelineResult) :
  fold_left (fun allResults batch => allResults ++ map processPage batch) bl acc
  = acc ++ map processPage (List.concat bl).
Proof.
  revert acc. induction bl as [|b bl IH]; intro acc; simpl; [now rewrite app_nil_r|].
  rewrite IH, map_app, app_assoc. reflexivity.
Qed.

End Facts.

(** With a positive [batchSize], [processPages] cuts the pages into
    consecutive batches of 1 to [batchSize] pages whose concatenation is
    the input; the page at [index] of batch [batchIndex] is the page at
    position [globalIndex - 1] of the input, so the number it logs is its
    1-based position; and the results are those of the pages in input
    order, one per page. *)
Theorem processPages_batches (Page PipelineResult : Type)
    (processPage : Page -> PipelineResult) (batchSize : nat) (pages : list Page) :
  0 < batchSize ->
  exists batches,
    makeBatches Page batchSize pages = Some batches /\
    List.concat batches = pages /\
    Forall (fun b => 0 < List.length b <= batchSize) batches /\
    (forall batchIndex batch index page,
       nth_error batches batchIndex = Some batch -> nth_error batch index = Some page ->
       nth_error pages (globalIndex batchSize batchIndex index - 1) = Some page) /\
    processPages Page PipelineResult processPage batchSize pages
      = Some (map processPage pages).
Proof.
  intro Hbs. unfold processPages, makeBatches.
  destruct (batches_loop_ends Page batchSize pages (S (List.length pages)) 0 Hbs)
    as [bl [E [Hc [Hl Hn]]]]; [lia|].
  exists bl. rewrite E. simpl in Hc. split; [reflexivity|]. split; [exact Hc|].
  split; [exact Hl|]. split.
  - intros bi b j p Hb Hp. rewrite (Hn bi b Hb) in Hp.
    assert (Hj : j < batchSize).
    { assert (Hp' : nth_error (firstn batchSize (skipn (0 + bi * batchSize) pages)) j <> None)
        by congruence.
      apply nth_error_Some in Hp'. rewrite length_firstn in Hp'. lia. }
    rewrite nth_error_firstn in Hp. destruct (Nat.ltb j batchSize); [|discriminate].
    rewrite nth_error_skipn in Hp. unfold globalIndex.
    replace (bi * batchSize + j + 1 - 1) with (0 + bi * batchSize + j) by lia. exact Hp.
  - now rewrite fold_batches, Hc.
Qed.

Lemma processPages_batches_witness :
  0 < 2 /\
  exists batches,
    makeBatches nat 2 [10; 20; 30] = Some batches /\
    List.concat batches = [10; 20; 30] /\
    Forall (fun b => 0 < List.length b <= 2) batches /\
    (forall batchIndex batch index page,
       nth_error batches batchIndex = Some batch -> nth_error batch index = Some page ->
       nth_error [10; 20; 30] (globalIndex 2 batchIndex index - 1) = Some page) /\
    processPages nat nat S 2 [10; 20; 30] = Some [11; 21; 31].
Proof.
  split; [lia|]. apply (processPages_batches nat nat S 2 [10; 20; 30]). lia.
Defined.

(** With [batchSize] 0 the batching loop [i += batchSize] never advances:
    for a non-empty page list it does not end, whatever the number of
    iterations allowed, and [processPages] never returns; an empty list
    gives no batch. *)
Theorem processPages_zero_batchSize (Page PipelineResult : Type)
    (processPage : Page -> PipelineResult) (pages : list Page) :
  (pages = [] -> processPages Page PipelineResult processPage 0 pages = Some []) /\
  (pages <> [] ->
   (forall fuel, batches_loop Page fuel 0 pages 0 = None) /\
   processPages Page PipelineResult processPage 0 pages = None).
Proof.
  split; [intros ->; reflexivity|]. intro Hne.
  assert (H : forall fuel, batches_loop Page fuel 0 pages 0 = None).
  { induction fuel as [|f IH]; simpl; [reflexivity|].
    destruct pages as [|p ps]; [congruence|]. simpl. rewrite IH. reflexivity. }
  split; [exact H|]. unfold processPages, makeBatches. now rewrite H.
Qed.

End PageBatchesFacts.

(** ** Indexing endpoints *)

Module IndexingFacts.
Import Pipeline Indexing.
Local Open Scope nat_scope.

(** *** [getAuthToken] *)

Lemma substring_0_length (s : string) : substring 0 (String.length s) s = s.
Proof. induction s as [|c s IH]; simpl; congruence. Qed.

Lemma substring_0_length_le (n : nat) (s : string) :
  String.length (substring 0 n s) <= String.length s.
Proof.
  revert n. induction s as [|c s IH]; intros [|n]; simpl; try lia. specialize (IH n). lia.
Qed.

Lemma substring_split (n : nat) (s : string) :
  n <= String.length s ->
  s = (substring 0 n s ++ substring n (String.length s - n) s)%string.
Proof.
  revert n. induction s as [|c s IH]; intros [|n] Hn; simpl in *; try lia.
  - reflexivity.
  - f_equal. now rewrite substring_0_length.
  - f_equal. apply IH. lia.
Qed.

(** [getAuthToken] accepts exactly the headers [Bearer <token>] and
    returns the text after the prefix unchanged: an absent or empty
    header, or any other scheme, gives no token. *)
Theorem getAuthToken_bearer (authorization : option string) (token : string) :
  getAuthToken authorization = Some token <->
  authorization = Some ("Bearer " ++ token)%string.
Proof.
  split.
  - destruct authorization as [auth|]; simpl; [|discriminate].
    destruct (String.eqb auth "") ; [discriminate|].
    destruct (String.prefix "Bearer " auth) eqn:P; [|discriminate].
    intro H. inversion H as [Ht]. clear H.
    apply prefix_correct in P. simpl String.length in P. f_equal.
    assert (Hl : 7 <= String.length auth).
    { pose proof (substring_0_length_le 7 auth) as L. rewrite P in L. simpl in L. exact L. }
    rewrite (substring_split 7 auth Hl) at 1. now rewrite P.
  - intros ->. simpl. rewrite Nat.sub_0_r, substring_0_length. now destruct token.
Qed.

(** *** The status handler *)

Lemma count_status_total (tasks : list IndexingTask) :
  count_status TaskQueued tasks + count_status TaskProcessing tasks
  + count_status TaskCompleted tasks + count_status TaskError tasks = List.length tasks.
Proof.
  unfold count_status. induction tasks as [|t ts IH]; simpl; [reflexivity|].
  destruct (task_status t); simpl; lia.
Qed.

(** The four counts of the status handler add up to the number of tasks
    (every task is counted once), and [recentTasks] is the last
    [min 20 n] tasks of the [n], in their order. *)
Theorem statusHandler_counts (tasks : list IndexingTask) :
  let st := statusHandler tasks in
  queued st + processing st + completed st + errors st = List.length tasks /\
  List.length (recent_tasks st) = Nat.min 20 (List.length tasks) /\
  exists older, tasks = older ++ recent_tasks st.
Proof.
  cbv zeta. unfold statusHandler. cbn [queued processing completed errors recent_tasks].
  split; [apply count_status_total|]. unfold slice_last. split.
  - rewrite length_skipn. lia.
  - exists (firstn (List.length tasks - 20) tasks). symmetry. apply firstn_skipn.
Qed.

(** *** The progress callback over one run of [processPage] *)

(** The status and progress left on the task by the last report of a run. *)
Definition final_task_state (failure : option FailurePoint) (n : nat) : TaskStatus * Q :=
  match failure with
  | Some FetchFails | Some CleanFails | Some SplitFails => (TaskError, 0%Q)
  | _ =>
      if Nat.eqb n 0 then (TaskProcessing, 30%Q)
      else match failure with
           | None => (TaskCompleted, 100%Q)
           | _ => (TaskError, 0%Q)
           end
  end.

Lemma onProgress_split (pageId : string) (ev : PipelineProgress)
    (pre post : list IndexingTask) (t : IndexingTask) :
  Forall (fun u => task_pageId u <> pageId) pre -> task_pageId t = pageId ->
  onProgress pageId ev (pre ++ t :: post) = pre ++ apply_progress ev t :: post.
Proof.
  intros Hpre Ht. induction Hpre as [|u pre Hu Hpre IH]; simpl.
  - apply String.eqb_eq in Ht. now rewrite Ht.
  - apply String.eqb_neq in Hu. rewrite Hu, IH. reflexivity.
Qed.

Lemma deliverRun_split (pageId : string) (reports : list (Stage * Q))
    (pre post : list IndexingTask) (t : IndexingTask) :
  Forall (fun u => task_pageId u <> pageId) pre -> task_pageId t = pageId ->
  deliverRun pageId reports (pre ++ t :: post)
  = pre ++ fold_left (fun u r => apply_progress (progressEvent r) u) reports t :: post.
Proof.
  unfold deliverRun. revert t. induction reports as [|r rs IH]; intros t Hpre Ht;
    simpl; [reflexivity|].
  rewrite onProgress_split by assumption. apply IH; [exact Hpre|exact Ht].
Qed.

Lemma apply_reports_last (reports : list (Stage * Q)) (x : Stage * Q) (t : IndexingTask) :
  fold_left (fun u r => apply_progress (progressEvent r) u) (reports ++ [x]) t
  = mkIndexingTask (task_id t) (task_pageId t) (status_of_stage (fst x)) (task_error t)
      (Some (snd x)).
Proof.
  rewrite fold_left_app. simpl.
  assert (G : forall rs u, let v := fold_left (fun u r => apply_progress (progressEvent r) u) rs u in
            task_id v = task_id u /\ task_pageId v = task_pageId u /\ task_error v = task_error u).
  { induction rs as [|r rs IH]; intro u; simpl; [tauto|].
    destruct (IH (apply_progress (progressEvent r) u)) as [A [B C]]. simpl in A, B, C.
    tauto. }
  destruct (G reports t) as [A [B C]]. cbv zeta in A, B, C.
  unfold apply_progress at 1. simpl. now rewrite A, B, C.
Qed.

Lemma processPage_progress_last (failure : option FailurePoint) (n : nat)
    (completed : list nat) :
  exists pre,
    processPage_progress failure n completed
      = pre ++ [(match fst (final_task_state failure n) with
                 | TaskCompleted => Completed
                 | TaskError => Error
                 | _ => Chunking
                 end, snd (final_task_state failure n))].
Proof.
  unfold processPage_progress.
  destruct failure as [[]|]; simpl;
    try (eexists [_]; reflexivity);
    try (eexists [_; _]; reflexivity);
    try (eexists [_; _; _]; reflexivity);
    destruct n; simpl; try (eexists [_; _]; reflexivity);
    try (eexists [_; _; _]; reflexivity).
  - eexists (_ :: _ :: _ :: _ :: _ ++ [_]). simpl. rewrite <- app_assoc. reflexivity.
  - eexists (_ :: _ :: _ :: _ :: _ ++ [_; _]). simpl. rewrite <- app_assoc. reflexivity.
Qed.

(** Over one run of [processPage] for [pageId], the callback of the index
    handlers updates only the first task of that page in the task map
    (later tasks of the same page are never updated) and never sets its
    error field. Its final status and progress are: completed, 100 after a
    successful run with fragments; error, 0 after a failure; and
    processing, 30 when the page has no fragment (the run ends without a
    final report), even if a later statement would have thrown. *)
Theorem deliverRun_final_task (pageId : string) (pre post : list IndexingTask)
    (t : IndexingTask) (failure : option FailurePoint) (n : nat) (completed : list nat) :
  Forall (fun u => task_pageId u <> pageId) pre -> task_pageId t = pageId ->
  deliverRun pageId (processPage_progress failure n completed) (pre ++ t :: post)
  = pre ++ mkIndexingTask (task_id t) pageId (fst (final_task_state failure n))
              (task_error t) (Some (snd (final_task_state failure n))) :: post.
Proof.
  intros Hpre Ht. rewrite deliverRun_split by assumption.
  destruct (processPage_progress_last failure n completed) as [rs E].
  rewrite E, apply_reports_last, Ht. simpl. do 3 f_equal.
  destruct failure as [[]|]; destruct n; reflexivity.
Qed.

Lemma deliverRun_final_task_witness :
  let mk i p := mkIndexingTask i p TaskQueued None (Some 0%Q) in
  (Forall (fun u => task_pageId u <> "p1"%string) [mk "t0"%string "p0"%string] /\
   task_pageId (mk "t1"%string "p1"%string) = "p1"%string) /\
  deliverRun "p1"%string (processPage_progress None 0 [])
    [mk "t0"%string "p0"%string; mk "t1"%string "p1"%string; mk "t2"%string "p1"%string]
  = [mk "t0"%string "p0"%string;
     mkIndexingTask "t1"%string "p1"%string TaskProcessing None (Some 30%Q);
     mk "t2"%string "p1"%string].
Proof.
  cbv zeta. split; [split; [constructor; [discriminate|constructor]|reflexivity]|].
  apply (deliverRun_final_task "p1"%string
           [mkIndexingTask "t0"%string "p0"%string TaskQueued None (Some 0%Q)]
           [mkIndexingTask "t2"%string "p1"%string TaskQueued None (Some 0%Q)]
           (mkIndexingTask "t1"%string "p1"%string TaskQueued None (Some 0%Q)) None 0 []).
  - constructor; [discriminate|constructor].
  - reflexivity.
Defined.

(** *** Collecting the pages of [index-descendants] *)

Section DescendantsProofs.

Variable fetchDescendants : string -> option (list (string * string)).
Variable roots : list PageItem.

Definition valid_root (root : PageItem) : bool :=
  truthy_str (item_id root) && truthy_str (item_spaceKey root) && truthy_str (item_title root).

(** Where a collected page comes from. *)
Definition origin (p : PageItem) : Prop :=
  (In p roots /\ valid_root p = true) \/
  exists root ds, In root roots /\ valid_root root = true /\
    fetchDescendants (item_id root) = Some ds /\
    In (item_id p, item_title p) ds /\ item_spaceKey p = item_spaceKey root.

Definition dinv (st : list string * list PageItem) : Prop :=
  fst st = map item_id (snd st) /\ NoDup (fst st) /\ Forall origin (snd st).

Lemma add_page_inv (st : list string * list PageItem) (p : PageItem) :
  dinv st -> origin p ->
  dinv (add_page st p) /\ In (item_id p) (fst (add_page st p)) /\
  (forall x, In x (fst st) -> In x (fst (add_page st p))).
Proof.
  destruct st as [seen ps]. intros [Hs [Hd Ho]] Hp. unfold add_page. simpl in *.
  destruct (existsb (String.eqb (item_id p)) seen) eqn:E.
  - split; [split; [exact Hs|split; assumption]|]. split; [|tauto].
    apply existsb_exists in E as [x [Hx Hxe]]. apply String.eqb_eq in Hxe. now subst.
  - split; [|split].
    + unfold dinv. simpl. split; [rewrite map_app, Hs; reflexivity|]. split.
      * apply NoDup_app; [exact Hd|repeat constructor; simpl; tauto|].
        intros x Hx [<-|[]]. assert (existsb (String.eqb (item_id p)) seen = true)
          by (apply existsb_exists; exists (item_id p); split; [exact Hx|apply String.eqb_refl]).
        congruence.
      * apply Forall_app. split; [exact Ho|now constructor].
    + simpl. apply in_or_app. right. now left.
    + intros x Hx. simpl. apply in_or_app. now left.
Qed.

Lemma add_pages_inv (ps : list PageItem) (st : list string * list PageItem) :
  dinv st -> Forall origin ps ->
  dinv (fold_left add_page ps st) /\
  (forall p, In p ps -> In (item_id p) (fst (fold_left add_page ps st))) /\
  (forall x, In x (fst st) -> In x (fst (fold_left add_page ps st))).
Proof.
  revert st. induction ps as [|p ps IH]; intros st Hst Hps; simpl; [split; [exact Hst|tauto]|].
  inversion Hps as [|? ? Hp Hps']; subst.
  destruct (add_page_inv st p Hst Hp) as [H1 [H2 H3]].
  destruct (IH _ H1 Hps') as [G1 [G2 G3]].
  split; [exact G1|split].
  - intros q [<-|Hq]; [now apply G3|now apply G2].
  - intros x Hx. now apply G3, H3.
Qed.

Lemma collect_root_inv (st : list string * list PageItem) (root : PageItem) :
  In root roots -> dinv st ->
  dinv (collect_root fetchDescendants st root) /\
  (forall x, In x (fst st) -> In x (fst (collect_root fetchDescendants st root))) /\
  (valid_root root = true ->
   In (item_id root) (fst (collect_root fetchDescendants st root)) /\
   forall ds d, fetchDescendants (item_id root) = Some ds -> In d ds ->
     In (fst d) (fst (collect_root fetchDescendants st root))).
Proof.
  intros Hr Hst. unfold collect_root. fold (valid_root root).
  destruct (valid_root root) eqn:V; [|split; [exact Hst|split; [tauto|discriminate]]].
  destruct (add_page_inv st root Hst (or_introl (conj Hr V))) as [H1 [H2 H3]].
  destruct (fetchDescendants (item_id root)) as [ds|] eqn:F.
  - set (dps := map (fun d => mkPageItem (fst d) (snd d) (item_spaceKey root)) ds).
    assert (Ho : Forall origin dps).
    { apply Forall_forall. intros p Hp. apply in_map_iff in Hp as [d [<- Hd]].
      right. exists root, ds. simpl. destruct d. repeat split; assumption. }
    destruct (add_pages_inv dps _ H1 Ho) as [G1 [G2 G3]].
    split; [exact G1|split; [intros x Hx; now apply G3, H3|intros _]].
    split; [now apply G3|]. intros ds' d E Hd. inversion E; subst ds'.
    apply (G2 (mkPageItem (fst d) (snd d) (item_spaceKey root))).
    apply in_map_iff. now exists d.
  - split; [exact H1|split; [exact H3|intros _]]. split; [exact H2|discriminate].
Qed.

Lemma collect_roots_inv (rs : list PageItem) (st : list string * list PageItem) :
  incl rs roots -> dinv st ->
  let st' := fold_left (collect_root fetchDescendants) rs st in
  dinv st' /\
  (forall x, In x (fst st) -> In x (fst st')) /\
  (forall root, In root rs -> valid_root root = true ->
     In (item_id root) (fst st') /\
     forall ds d, fetchDescendants (item_id root) = Some ds -> In d ds -> In (fst d) (fst st')).
Proof.
  cbv zeta. revert st. induction rs as [|r rs IH]; intros st Hincl Hst; simpl;
    [split; [exact Hst|split; [tauto|intros ? []]]|].
  destruct (collect_root_inv st r (Hincl r (or_introl eq_refl)) Hst) as [H1 [H2 H3]].
  destruct (IH _ (fun x Hx => Hincl x (or_intror Hx)) H1) as [G1 [G2 G3]].
  split; [exact G1|split; [intros x Hx; now apply G2, H2|]].
  intros root [<-|Hroot] V; [|now apply G3].
  destruct (H3 V) as [A B]. split; [now apply G2|].
  intros ds d F Hd. apply G2. eapply B; eassumption.
Qed.

End DescendantsProofs.

(** [index-descendants] collects pages with distinct ids: every root with
    an id, a space key and a title, and every descendant fetched for such a
    root, is collected once; every collected page is such a root or a
    descendant carried with its root's space key. A root whose descendants
    could not be fetched is still collected. *)
Theorem pagesToIndex_collect (fetchDescendants : string -> option (list (string * string)))
    (roots : list PageItem) :
  let pages := pagesToIndex fetchDescendants roots in
  NoDup (map item_id pages) /\
  Forall (origin fetchDescendants roots) pages /\
  forall root, In root roots -> valid_root root = true ->
    In (item_id root) (map item_id pages) /\
    forall ds d, fetchDescendants (item_id root) = Some ds -> In d ds ->
      In (fst d) (map item_id pages).
Proof.
  cbv zeta. unfold pagesToIndex.
  destruct (collect_roots_inv fetchDescendants roots roots ([], []) (incl_refl _))
    as [[Hs [Hd Ho]] [_ H]]; [repeat split; constructor|].
  rewrite <- Hs. split; [exact Hd|split; [exact Ho|]]. exact H.
Qed.

End IndexingFacts.

(** ** The questions kept from an answer *)

Module QuestionsMore.
Import Text Questions TextFacts ListFacts.
Local Open Scope nat_scope.

Lemma validate_questions_shape (maxQuestions : nat) (items : list JsonValue) :
  List.length (validate_questions maxQuestions items) <= maxQuestions /\
  Forall (fun q => str_trim q = q /\ 10 <= String.length q /\
                   exists s, In (JString s) items /\ q = str_trim s)
    (validate_questions maxQuestions items).
Proof.
  unfold validate_questions. split; [rewrite length_firstn; lia|].
  apply Forall_forall. intros q Hq. apply in_firstn in Hq.
  apply filter_In in Hq as [Hq Hl]. apply Nat.leb_le in Hl.
  apply in_map_iff in Hq as [s [<- Hs]].
  split; [apply str_trim_idem|split; [exact Hl|]].
  exists s. split; [|reflexivity].
  apply in_flat_map in Hs as [v [Hv Hs]].
  destruct v; simpl in Hs; try contradiction.
  destruct (Nat.ltb 0 (String.length (str_trim s0))); simpl in Hs; [|contradiction].
  destruct Hs as [<-|[]]. exact Hv.
Qed.

(** [generateQuestionsForChunk] returns no question for a blank fragment;
    for a non-blank one it returns either the fragment text itself, as the
    single fallback question, or the answer is an object whose [questions]
    field is an array [items] and the result has at most [maxQuestions]
    questions, each at least 10 characters long and equal to the trim of a
    string element of [items]. *)
Theorem generateQuestionsForChunk_shape (chunkText : string) (maxQuestions : nat)
    (llm : ChatOutcome) :
  let questions := generateQuestionsForChunk chunkText maxQuestions llm in
  (String.length (str_trim chunkText) = 0 -> questions = []) /\
  (0 < String.length (str_trim chunkText) ->
   questions = [chunkText] \/
   exists v items,
     llm = ChatAnswer (Some v) /\
     get_prop v "questions"%string = Some (JArray items) /\
     List.length questions <= maxQuestions /\
     Forall (fun q => str_trim q = q /\ 10 <= String.length q /\
                      exists s, In (JString s) items /\ q = str_trim s) questions).
Proof.
  cbv zeta. unfold generateQuestionsForChunk.
  destruct (Nat.eqb (String.length (str_trim chunkText)) 0) eqn:B.
  { apply Nat.eqb_eq in B. split; [reflexivity|intro H; lia]. }
  split; [intro H; apply Nat.eqb_neq in B; contradiction|intros _].
  destruct llm as [|pr]; [now left|].
  destruct (negb (truthy pr)); [now left|].
  destruct pr as [v|]; [|now left].
  destruct (get_prop v "questions"%string) as [[| | | |items|]|] eqn:G;
    try (now left).
  right. exists v, items. split; [reflexivity|split; [exact G|]].
  apply validate_questions_shape.
Qed.

End QuestionsMore.

(** ** [addSourceMetadata] *)

Module MetadataFacts.
Import Metadata.
Local Open Scope nat_scope.

Lemma string_length_app (p c : string) :
  String.length (p ++ c) = String.length p + String.length c.
Proof. induction p as [|a p IH]; simpl; congruence. Qed.

Lemma string_app_assoc (a b c : string) : ((a ++ b) ++ c = a ++ (b ++ c))%string.
Proof. induction a as [|x a IH]; simpl; congruence. Qed.

Lemma substring_app_skip (p c : string) (m : nat) :
  substring (String.length p) m (p ++ c) = substring 0 m c.
Proof. induction p as [|a p IH]; simpl; [reflexivity|exact IH]. Qed.

Lemma substring_app_prefix (p c : string) :
  substring 0 (String.length p) (p ++ c) = p.
Proof. induction p as [|a p IH]; simpl; [now destruct c|congruence]. Qed.

(** Every output of [addSourceMetadata] starts with the source tag of the
    page, and the chunk is recovered unchanged by dropping the tag and the
    two line feeds that follow it: the chunks keep their order and
    content. *)
Theorem addSourceMetadata_roundtrip (chunks : list string)
    (pageTitle pageId baseUrl : string) :
  let tag := sourcePrefix pageTitle pageId baseUrl in
  let n := String.length tag + 2 in
  Forall (fun s => String.prefix tag s = true) (addSourceMetadata chunks pageTitle pageId baseUrl) /\
  map (fun s => substring n (String.length s - n) s)
    (addSourceMetadata chunks pageTitle pageId baseUrl) = chunks.
Proof.
  cbv zeta. unfold addSourceMetadata.
  set (tag := sourcePrefix pageTitle pageId baseUrl).
  set (sep := String Chunker.nl (String Chunker.nl EmptyString)).
  split.
  - apply Forall_map, Forall_forall. intros c _. apply prefix_correct.
    apply substring_app_prefix.
  - rewrite map_map. rewrite <- (map_id chunks) at 2. apply map_ext. intro c.
    replace (String.length tag + 2) with (String.length (tag ++ sep)%string)
      by (rewrite string_length_app; reflexivity).
    rewrite <- (string_app_assoc tag sep c).
    rewrite substring_app_skip, string_length_app, Nat.add_comm, Nat.add_sub.
    apply IndexingFacts.substring_0_length.
Qed.

End MetadataFacts.
